(** * Verification of the dual-representation synchronisation core of the
    editor ([apps/editor/src/editorCore.ts], its [SnapshotHistory] and the
    [wwUserEdit] notification of [WysiwygEditor]). *)

From Stdlib Require Import ZArith List String Ascii Bool Lia Permutation Sorted DecimalString.
Import ListNotations.
Open Scope Z_scope.
Open Scope list_scope.
Local Abbreviation length := List.length.

(** ** JavaScript helpers: [String.prototype.split('\n')], [Array.prototype.join]. *)
Module Js.

Definition nl : ascii := Ascii.ascii_of_nat 10.

(** [s.split('\n')]: never empty; [''.split('\n') = ['']]. *)
Fixpoint split (s : string) : list string :=
  match s with
  | EmptyString => [EmptyString]
  | String c rest =>
      if Ascii.eqb c nl then EmptyString :: split rest
      else match split rest with
           | [] => [String c EmptyString]
           | x :: xs => String c x :: xs
           end
  end.

(** [lines.join(sep)]. *)
Definition join (sep : string) (l : list string) : string := String.concat sep l.

Definition NL : string := String nl EmptyString.

(** [s.length] (one unit per character of the model). *)
Definition strlen (s : string) : Z := Z.of_nat (String.length s).

(** [arr.pop()]: the removed last element and the remaining array. *)
Definition pop {A} (l : list A) : option A * list A :=
  match rev l with
  | [] => (None, [])
  | x :: r => (Some x, rev r)
  end.

(** [arr[arr.length - 1]] *)
Definition lastOpt {A} (l : list A) : option A :=
  match rev l with
  | [] => None
  | x :: _ => Some x
  end.

End Js.

(** ** [history/snapshotHistory.ts] *)
Module SnapshotHistory.
Section History.
Variable Snapshot : Type.

Record t := mk { undoStack : list Snapshot; redoStack : list Snapshot }.

Definition empty : t := mk [] [].

Definition push (s : Snapshot) (h : t) : t := mk (undoStack h ++ [s]) [].

Definition canUndo (h : t) : bool := (1 <? List.length (undoStack h))%nat.

Definition canRedo (h : t) : bool := (0 <? List.length (redoStack h))%nat.

Definition undo (h : t) : option Snapshot * t :=
  if negb (canUndo h) then (None, h)
  else
    let '(current, u) := Js.pop (undoStack h) in
    let r := match current with
             | Some c => redoStack h ++ [c]
             | None => redoStack h
             end in
    (Js.lastOpt u, mk u r).

Definition redo (h : t) : option Snapshot * t :=
  if negb (canRedo h) then (None, h)
  else
    let '(next, r) := Js.pop (redoStack h) in
    match next with
    | Some n => (Some n, mk (undoStack h ++ [n]) r)
    | None => (None, mk (undoStack h) r)
    end.

Definition size (h : t) : nat * nat := (List.length (undoStack h), List.length (redoStack h)).

(** Pushing a sequence of snapshots, first to last. *)
Definition pushAll (l : list Snapshot) (h : t) : t :=
  fold_left (fun acc s => push s acc) l h.

(** Calling [undo()] [n] times, collecting the returned values. *)
Fixpoint undoMany (n : nat) (h : t) : list (option Snapshot) * t :=
  match n with
  | O => ([], h)
  | S k =>
      let '(r, h1) := undo h in
      let '(rs, h2) := undoMany k h1 in
      (r :: rs, h2)
  end.

End History.
Arguments mk {Snapshot}.
Arguments undoStack {Snapshot}.
Arguments redoStack {Snapshot}.
Arguments empty {Snapshot}.
Arguments push {Snapshot}.
Arguments canUndo {Snapshot}.
Arguments canRedo {Snapshot}.
Arguments undo {Snapshot}.
Arguments redo {Snapshot}.
Arguments size {Snapshot}.
Arguments pushAll {Snapshot}.
Arguments undoMany {Snapshot}.
End SnapshotHistory.

(** [Array.prototype.splice], [arr[i]] and the stable [Array.prototype.sort]. *)
Module JsArray.

(** [l.splice(start, deleteCount, ...items)], returning the updated array. *)
Definition splice {A} (l : list A) (start deleteCount : Z) (items : list A) : list A :=
  let len := Z.of_nat (List.length l) in
  let s := if start <? 0 then Z.max (len + start) 0 else Z.min start len in
  let dc := Z.min (Z.max deleteCount 0) (len - s) in
  firstn (Z.to_nat s) l ++ items ++ skipn (Z.to_nat (s + dc)) l.

(** [l[i]], [undefined] out of range. *)
Definition at_ {A} (l : list A) (i : Z) : option A :=
  if i <? 0 then None else nth_error l (Z.to_nat i).

Fixpoint insertBy {A} (key : A -> Z) (x : A) (l : list A) : list A :=
  match l with
  | [] => [x]
  | y :: r => if key x <? key y then x :: y :: r else y :: insertBy key x r
  end.

(** [l.slice().sort((a, b) => key(a) - key(b))]: a stable sort. *)
Definition sortBy {A} (key : A -> Z) (l : list A) : list A :=
  fold_left (fun acc x => insertBy key x acc) l [].

End JsArray.

(** ** The pure helpers of [editorCore.ts] *)
Module EditorCore.

(** [type MdPos = [line, ch]] *)
Definition MdPos := (Z * Z)%type.

Record BlockRange := { startIndex : Z; endIndex : Z }.
Record WwBlockRange := { oldRange : BlockRange; newRange : BlockRange }.
Record LineRange := { startLine : Z; endLine : Z }.
Record MdPatch := { range : LineRange; text : string }.

(** [clampMdPos] *)
Definition clampMdPos (md : string) (pos : MdPos) : MdPos :=
  let lines := Js.split md in
  let lineIndex := Z.min (Z.max (fst pos) 1) (Z.max (Z.of_nat (List.length lines)) 1) in
  let lineText := match JsArray.at_ lines (lineIndex - 1) with
                  | Some l => l
                  | None => EmptyString
                  end in
  let maxCh := Z.max (Js.strlen lineText + 1) 1 in
  let ch := Z.min (Z.max (snd pos) 1) maxCh in
  (lineIndex, ch).

(** [normalizeBlockRange] *)
Definition normalizeBlockRange (r : BlockRange) : BlockRange :=
  {| startIndex := Z.min (startIndex r) (endIndex r);
     endIndex := Z.max (startIndex r) (endIndex r) |}.

(** [rangesOverlapOrTouch] *)
Definition rangesOverlapOrTouch (a b : BlockRange) : bool :=
  (startIndex a <=? endIndex b + 1) && (startIndex b <=? endIndex a + 1).

(** [mergeLineRange] *)
Definition mergeLineRange (a b : BlockRange) : BlockRange :=
  {| startIndex := Z.min (startIndex a) (startIndex b);
     endIndex := Z.max (endIndex a) (endIndex b) |}.

(** One iteration of the [forEach] of [addWwEditRange]: the running
    [next] and the ranges kept so far. *)
Definition addStep (acc : WwBlockRange * list WwBlockRange) (existing : WwBlockRange)
  : WwBlockRange * list WwBlockRange :=
  let '(next, merged) := acc in
  if rangesOverlapOrTouch (oldRange existing) (oldRange next)
     || rangesOverlapOrTouch (newRange existing) (newRange next)
  then ({| oldRange := mergeLineRange (oldRange existing) (oldRange next);
           newRange := mergeLineRange (newRange existing) (newRange next) |}, merged)
  else (next, merged ++ [existing]).

(** [addWwEditRange], on the [pendingWwRanges] array. *)
Definition addWwEditRange (pending : list WwBlockRange) (r : WwBlockRange)
  : list WwBlockRange :=
  let next0 := {| oldRange := normalizeBlockRange (oldRange r);
                  newRange := normalizeBlockRange (newRange r) |} in
  let '(next, merged) := fold_left addStep pending (next0, []) in
  merged ++ [next].

(** [splitLines] *)
Definition splitLines (s : string) : list string :=
  if String.eqb s EmptyString then [] else Js.split s.

(** One iteration of the [forEach] of [applyMdPatches]. *)
Definition patchStep (acc : list string * Z) (patch : MdPatch) : list string * Z :=
  let '(lines, lineOffset) := acc in
  let startIdx := startLine (range patch) - 1 + lineOffset in
  let endIdx := endLine (range patch) - 1 + lineOffset in
  let replacementLines := splitLines (text patch) in
  (JsArray.splice lines startIdx (endIdx - startIdx + 1) replacementLines,
   lineOffset + (Z.of_nat (List.length replacementLines) - (endIdx - startIdx + 1))).

Definition patchKey (p : MdPatch) : Z := startLine (range p).

(** [applyMdPatches] *)
Definition applyMdPatches (md : string) (patches : list MdPatch) : string :=
  let lines := Js.split md in
  let ordered := JsArray.sortBy patchKey patches in
  let '(lines', _) := fold_left patchStep ordered (lines, 0) in
  match lines' with
  | [] => EmptyString
  | _ => Js.join Js.NL lines'
  end.

End EditorCore.

(** ** The coordinator ([class ToastUIEditorCore]) as a state/exception monad.
    The external collaborators are section variables: the ProseMirror node
    type of a top-level block and its structural [eq], the convertor's
    [toMarkdownText] and [toWysiwygModel], the top-level line ranges of the
    ToastMark tree of a text, and the snapshot factory [createSnapshot]. *)
Module Coordinator.
Import EditorCore.

Inductive EditorType := Markdown | Wysiwyg.

Definition editorType_eqb (a b : EditorType) : bool :=
  match a, b with
  | Markdown, Markdown | Wysiwyg, Wysiwyg => true
  | _, _ => false
  end.

(** Errors a JavaScript call may raise. *)
Inductive Exc := TypeError | RangeError.

(** The object passed with [wwUserEdit]; a property absent from the object
    literal is [None] ([undefined]). *)
Record WwUserEditPayload := {
  p_oldRange : option BlockRange;
  p_newRange : option BlockRange;
  p_mdBlockIds : option (list Z);
  p_wwRange : option BlockRange;
  p_hasMissingId : option bool }.

(** The object literal [{ mdBlockIds, wwRange, hasMissingId }] emitted by
    [WysiwygEditor]'s [dispatchTransaction] (both of its branches). *)
Definition wwUserEditPayload (mdBlockIds : list Z) (wwRange : BlockRange)
  (hasMissingId : bool) : WwUserEditPayload :=
  {| p_oldRange := None; p_newRange := None; p_mdBlockIds := Some mdBlockIds;
     p_wwRange := Some wwRange; p_hasMissingId := Some hasMissingId |}.

(** [wwSerializeDelay] *)
Definition wwSerializeDelay : Z := 300.

Section Core.
Variable Node : Type.
Variable docEq : list Node -> list Node -> bool.
Variable toMarkdownText : list Node -> string.
Variable toWysiwygModel : string -> list Node.
Variable mdBlockLines : string -> list LineRange.
(** The block indices and block range [dispatchTransaction] derives from
    the previous and next documents. *)
Variable diffInfo : list Node -> list Node -> list Z * BlockRange * bool.
Variable Snapshot : Type.
Variable snapMd : Snapshot -> string.

Record Core := {
  mode : EditorType;
  canonicalMd : string;
  mdText : string;                      (* content of [mdEditor] *)
  wwDoc : list Node;                    (* [wwEditor.getModel()] *)
  wwDirty : bool;
  wwSerializeTimer : option Z;          (* due time of the pending timer *)
  pendingWwRanges : list WwBlockRange;
  wwBaselineDoc : option (list Node);
  suppressSnapshot : bool;
  snapshotHistory : SnapshotHistory.t Snapshot;
  clock : Z }.

Variable createSnapshot : Core -> string -> Snapshot.

Definition St (A : Type) := Core -> Core * (Exc + A).

Definition ret {A} (a : A) : St A := fun st => (st, inr a).
Definition throw {A} (e : Exc) : St A := fun st => (st, inl e).
Definition bind {A B} (m : St A) (k : A -> St B) : St B :=
  fun st => match m st with
            | (st1, inl e) => (st1, inl e)
            | (st1, inr a) => k a st1
            end.
Definition get : St Core := fun st => (st, inr st).
Definition modify (f : Core -> Core) : St unit := fun st => (f st, inr tt).

Local Notation "x <- m ;; k" := (bind m (fun x => k)) (at level 61, m at next level, right associativity).
Local Notation "m ;; k" := (bind m (fun _ => k)) (at level 61, right associativity).

Definition setCanonicalMd (v : string) (st : Core) : Core :=
  {| mode := mode st; canonicalMd := v; mdText := mdText st; wwDoc := wwDoc st;
     wwDirty := wwDirty st; wwSerializeTimer := wwSerializeTimer st;
     pendingWwRanges := pendingWwRanges st; wwBaselineDoc := wwBaselineDoc st;
     suppressSnapshot := suppressSnapshot st; snapshotHistory := snapshotHistory st;
     clock := clock st |}.
Definition setMode (v : EditorType) (st : Core) : Core :=
  {| mode := v; canonicalMd := canonicalMd st; mdText := mdText st; wwDoc := wwDoc st;
     wwDirty := wwDirty st; wwSerializeTimer := wwSerializeTimer st;
     pendingWwRanges := pendingWwRanges st; wwBaselineDoc := wwBaselineDoc st;
     suppressSnapshot := suppressSnapshot st; snapshotHistory := snapshotHistory st;
     clock := clock st |}.
Definition setMdText (v : string) (st : Core) : Core :=
  {| mode := mode st; canonicalMd := canonicalMd st; mdText := v; wwDoc := wwDoc st;
     wwDirty := wwDirty st; wwSerializeTimer := wwSerializeTimer st;
     pendingWwRanges := pendingWwRanges st; wwBaselineDoc := wwBaselineDoc st;
     suppressSnapshot := suppressSnapshot st; snapshotHistory := snapshotHistory st;
     clock := clock st |}.
Definition setWwDoc (v : list Node) (st : Core) : Core :=
  {| mode := mode st; canonicalMd := canonicalMd st; mdText := mdText st; wwDoc := v;
     wwDirty := wwDirty st; wwSerializeTimer := wwSerializeTimer st;
     pendingWwRanges := pendingWwRanges st; wwBaselineDoc := wwBaselineDoc st;
     suppressSnapshot := suppressSnapshot st; snapshotHistory := snapshotHistory st;
     clock := clock st |}.
Definition setWwDirty (v : bool) (st : Core) : Core :=
  {| mode := mode st; canonicalMd := canonicalMd st; mdText := mdText st; wwDoc := wwDoc st;
     wwDirty := v; wwSerializeTimer := wwSerializeTimer st;
     pendingWwRanges := pendingWwRanges st; wwBaselineDoc := wwBaselineDoc st;
     suppressSnapshot := suppressSnapshot st; snapshotHistory := snapshotHistory st;
     clock := clock st |}.
Definition setTimer (v : option Z) (st : Core) : Core :=
  {| mode := mode st; canonicalMd := canonicalMd st; mdText := mdText st; wwDoc := wwDoc st;
     wwDirty := wwDirty st; wwSerializeTimer := v;
     pendingWwRanges := pendingWwRanges st; wwBaselineDoc := wwBaselineDoc st;
     suppressSnapshot := suppressSnapshot st; snapshotHistory := snapshotHistory st;
     clock := clock st |}.
Definition setPending (v : list WwBlockRange) (st : Core) : Core :=
  {| mode := mode st; canonicalMd := canonicalMd st; mdText := mdText st; wwDoc := wwDoc st;
     wwDirty := wwDirty st; wwSerializeTimer := wwSerializeTimer st;
     pendingWwRanges := v; wwBaselineDoc := wwBaselineDoc st;
     suppressSnapshot := suppressSnapshot st; snapshotHistory := snapshotHistory st;
     clock := clock st |}.
Definition setBaseline (v : option (list Node)) (st : Core) : Core :=
  {| mode := mode st; canonicalMd := canonicalMd st; mdText := mdText st; wwDoc := wwDoc st;
     wwDirty := wwDirty st; wwSerializeTimer := wwSerializeTimer st;
     pendingWwRanges := pendingWwRanges st; wwBaselineDoc := v;
     suppressSnapshot := suppressSnapshot st; snapshotHistory := snapshotHistory st;
     clock := clock st |}.
Definition setSuppress (v : bool) (st : Core) : Core :=
  {| mode := mode st; canonicalMd := canonicalMd st; mdText := mdText st; wwDoc := wwDoc st;
     wwDirty := wwDirty st; wwSerializeTimer := wwSerializeTimer st;
     pendingWwRanges := pendingWwRanges st; wwBaselineDoc := wwBaselineDoc st;
     suppressSnapshot := v; snapshotHistory := snapshotHistory st;
     clock := clock st |}.
Definition setHistory (v : SnapshotHistory.t Snapshot) (st : Core) : Core :=
  {| mode := mode st; canonicalMd := canonicalMd st; mdText := mdText st; wwDoc := wwDoc st;
     wwDirty := wwDirty st; wwSerializeTimer := wwSerializeTimer st;
     pendingWwRanges := pendingWwRanges st; wwBaselineDoc := wwBaselineDoc st;
     suppressSnapshot := suppressSnapshot st; snapshotHistory := v;
     clock := clock st |}.


(** [pushSnapshot] *)
Definition pushSnapshot (md : string) : St unit :=
  st <- get ;;
  modify (setHistory (SnapshotHistory.push (createSnapshot st md) (snapshotHistory st))).

(** The [change] listener for [editorType === 'markdown']. *)
Definition onMdChange : St unit :=
  st <- get ;;
  modify (setCanonicalMd (mdText st)) ;;
  modify (setWwDirty false) ;;
  st1 <- get ;;
  if suppressSnapshot st1 then ret tt else pushSnapshot (canonicalMd st1).

(** Modelled from the spec: [MarkdownEditor.setMarkdown] (not in the
    sources) replaces the text view's content and emits the text view's
    change event. *)
Definition mdSetMarkdown (s : string) : St unit :=
  modify (setMdText s) ;; onMdChange.

(** [scheduleWwSerialize]: clears the previous timer and starts a new one. *)
Definition scheduleWwSerialize : St unit :=
  st <- get ;; modify (setTimer (Some (clock st + wwSerializeDelay))).

(** [this.addWwEditRange(range)] on the received object: reading
    [range.oldRange.startIndex] (resp. [newRange]) of an absent property
    raises a [TypeError]. *)
Definition addWwEditRangeJs (p : WwUserEditPayload) : St unit :=
  match p_oldRange p, p_newRange p with
  | Some o, Some n =>
      st <- get ;;
      modify (setPending (addWwEditRange (pendingWwRanges st) {| oldRange := o; newRange := n |}))
  | _, _ => throw TypeError
  end.

(** The [wwUserEdit] listener registered in the constructor. *)
Definition onWwUserEdit (range : option WwUserEditPayload) : St unit :=
  modify (setWwDirty true) ;;
  (match range with
   | Some p => addWwEditRangeJs p
   | None => ret tt
   end) ;;
  scheduleWwSerialize.

(** [wwEditor.setModel(doc, _, _, programmatic)]: a whole-document
    replacement dispatched through [dispatchTransaction], which emits
    [wwUserEdit] for a document change not marked programmatic. *)
Definition wwSetModel (doc : list Node) (programmatic : bool) : St unit :=
  st <- get ;;
  let prev := wwDoc st in
  modify (setWwDoc doc) ;;
  let docChanged := match prev, doc with [], [] => false | _, _ => true end in
  if docChanged && negb programmatic then
    let '(ids, rng, missing) := diffInfo prev doc in
    onWwUserEdit (Some (wwUserEditPayload ids rng missing))
  else ret tt.

(** [clearPendingWwEdits] *)
Definition clearPendingWwEdits : St unit :=
  modify (setTimer None) ;; modify (setPending []).

(** [runProgrammatic]: [suppressSnapshot] is lowered again in [finally]. *)
Definition runProgrammatic (task : St unit) : St unit :=
  fun st => let '(st1, r) := task (setSuppress true st) in (setSuppress false st1, r).

(** [setWwBaseline]: only in WYSIWYG mode. *)
Definition setWwBaseline : St unit :=
  st <- get ;;
  match mode st with
  | Wysiwyg => modify (setBaseline (Some (wwDoc st)))
  | Markdown => ret tt
  end.

(** [doc.child(i)] for [n] consecutive indices; [RangeError] out of range. *)
Fixpoint children (doc : list Node) (i : Z) (n : nat) : Exc + list Node :=
  match n with
  | O => inr []
  | S k =>
      match JsArray.at_ doc i with
      | None => inl RangeError
      | Some x => match children doc (i + 1) k with
                  | inl e => inl e
                  | inr xs => inr (x :: xs)
                  end
      end
  end.

(** [serializeWwBlockRange]; [inr None] is the [null] result. *)
Definition serializeWwBlockRange (doc : list Node) (r : BlockRange) : Exc + option string :=
  let childCount := Z.of_nat (List.length doc) in
  if childCount =? 0 then inr (Some EmptyString)
  else if (startIndex r <? 0) || (endIndex r >=? childCount) then inr None
  else
    let lastIndex := Z.max (endIndex r) (startIndex r) in
    match children doc (startIndex r) (Z.to_nat (lastIndex - startIndex r + 1)) with
    | inl e => inl e
    | inr [] => inr (Some EmptyString)
    | inr nodes => inr (Some (toMarkdownText nodes))
    end.

(** [getMdBlockByIndex] on the top-level blocks: a walk along [next] from
    [firstChild], so an index below [0] gives the first block. *)
Definition getMdBlockByIndex (blocks : list LineRange) (index : Z) : option LineRange :=
  nth_error blocks (Z.to_nat index).

(** [getBlockLineRangeForIndexRange] *)
Definition getBlockLineRangeForIndexRange (r : BlockRange) (blocks : list LineRange)
  : option LineRange :=
  match getMdBlockByIndex blocks (startIndex r), getMdBlockByIndex blocks (endIndex r) with
  | Some s, Some e =>
      Some {| startLine := startLine s; endLine := Z.max (endLine e) (startLine s) |}
  | _, _ => None
  end.

(** The [map] of [flushSerialize] over the sorted ranges. *)
Fixpoint resolveRanges (blocks : list LineRange) (doc : list Node) (rs : list WwBlockRange)
  : Exc + list (option LineRange * option string) :=
  match rs with
  | [] => inr []
  | r :: rest =>
      let patchRange := getBlockLineRangeForIndexRange (oldRange r) blocks in
      match serializeWwBlockRange doc (newRange r) with
      | inl e => inl e
      | inr t => match resolveRanges blocks doc rest with
                 | inl e => inl e
                 | inr xs => inr ((patchRange, t) :: xs)
                 end
      end
  end.

Definition isNone {A} (o : option A) : bool :=
  match o with None => true | Some _ => false end.

(** [shouldSerializeAll] *)
Definition shouldSerializeAll (results : list (option LineRange * option string)) : bool :=
  existsb (fun x => isNone (fst x) || isNone (snd x)) results.

(** The [filter] of [flushSerialize]: patches of the resolved old ranges. *)
Definition patchesOf (results : list (option LineRange * option string)) : list MdPatch :=
  flat_map (fun x => match fst x with
                     | Some r => [{| range := r;
                                     text := match snd x with Some s => s | None => EmptyString end |}]
                     | None => []
                     end) results.

Definition oldStartKey (r : WwBlockRange) : Z := startIndex (oldRange r).

(** The patch (or full serialization) part of [flushSerialize]. *)
Definition flushPatches : St string :=
  st <- get ;;
  let blocks := mdBlockLines (canonicalMd st) in
  let sorted := JsArray.sortBy oldStartKey (pendingWwRanges st) in
  match resolveRanges blocks (wwDoc st) sorted with
  | inl e => throw e
  | inr results =>
      if shouldSerializeAll results then
        modify (setPending []) ;; ret (toMarkdownText (wwDoc st))
      else
        modify (setPending []) ;; ret (applyMdPatches (canonicalMd st) (patchesOf results))
  end.

(** [flushSerialize] *)
Definition flushSerialize : St string :=
  st <- get ;;
  match pendingWwRanges st with
  | [] => ret (canonicalMd st)
  | _ =>
      match wwBaselineDoc st with
      | Some baseline =>
          if docEq (wwDoc st) baseline then
            clearPendingWwEdits ;; modify (setWwDirty false) ;; ret (canonicalMd st)
          else flushPatches
      | None => flushPatches
      end
  end.

(** [flushSerializeAndMaybePush] *)
Definition flushSerializeAndMaybePush : St string :=
  nextMd <- flushSerialize ;;
  st <- get ;;
  (if negb (String.eqb nextMd (canonicalMd st))
   then modify (setCanonicalMd nextMd) ;; pushSnapshot nextMd
   else ret tt) ;;
  modify (setWwDirty false) ;;
  setWwBaseline ;;
  ret nextMd.

(** [flushPendingWwSerialize] *)
Definition flushPendingWwSerialize : St unit :=
  modify (setTimer None) ;;
  st <- get ;;
  if wwDirty st then (_ <- flushSerializeAndMaybePush ;; ret tt) else ret tt.

(** The event loop reaching time [t]: a due timer runs its callback. *)
Definition advanceClock (t : Z) : St unit :=
  st <- get ;;
  modify (fun s => {| mode := mode s; canonicalMd := canonicalMd s; mdText := mdText s;
                      wwDoc := wwDoc s; wwDirty := wwDirty s;
                      wwSerializeTimer := wwSerializeTimer s;
                      pendingWwRanges := pendingWwRanges s; wwBaselineDoc := wwBaselineDoc s;
                      suppressSnapshot := suppressSnapshot s;
                      snapshotHistory := snapshotHistory s; clock := t |}) ;;
  match wwSerializeTimer st with
  | Some due => if due <=? t
                then modify (setTimer None) ;; (_ <- flushSerializeAndMaybePush ;; ret tt)
                else ret tt
  | None => ret tt
  end.

(** [setMarkdown(markdown, _, _, programmatic)]; the ToastMark tree of the
    text view is the one converted. *)
Definition setMarkdown (markdown : string) (programmatic : bool) : St unit :=
  mdSetMarkdown markdown ;;
  st <- get ;;
  match mode st with
  | Wysiwyg => wwSetModel (toWysiwygModel (mdText st)) programmatic
  | Markdown => ret tt
  end.

(** [applyProgrammatic] (selection and scroll restoration change no state
    modelled here: a selection transaction does not change the document). *)
Definition applyProgrammatic (md : string) : St unit :=
  clearPendingWwEdits ;;
  modify (setCanonicalMd md) ;;
  modify (setWwDirty false) ;;
  runProgrammatic (setMarkdown md true) ;;
  setWwBaseline.

(** [undoBySnapshot] *)
Definition undoBySnapshot : St unit :=
  flushPendingWwSerialize ;;
  st <- get ;;
  let '(s, h) := SnapshotHistory.undo (snapshotHistory st) in
  modify (setHistory h) ;;
  match s with
  | Some sn => applyProgrammatic (snapMd sn)
  | None => ret tt
  end.

(** [redoBySnapshot] *)
Definition redoBySnapshot : St unit :=
  flushPendingWwSerialize ;;
  st <- get ;;
  let '(s, h) := SnapshotHistory.redo (snapshotHistory st) in
  modify (setHistory h) ;;
  match s with
  | Some sn => applyProgrammatic (snapMd sn)
  | None => ret tt
  end.

(** [getMarkdown] *)
Definition getMarkdown : St string :=
  st <- get ;;
  match mode st with
  | Markdown => ret (canonicalMd st)
  | Wysiwyg => flushPendingWwSerialize ;; st1 <- get ;; ret (canonicalMd st1)
  end.

(** [changeMode(mode)]; the popup/focus/selection tail dispatches no
    document change and is left out. *)
Definition changeMode (next : EditorType) : St unit :=
  st <- get ;;
  if editorType_eqb (mode st) next then ret tt
  else
    modify (setMode next) ;;
    match next with
    | Wysiwyg =>
        let wwNode := toWysiwygModel (mdText st) in
        modify (setWwDirty false) ;;
        clearPendingWwEdits ;;
        runProgrammatic (wwSetModel wwNode true) ;;
        setWwBaseline
    | Markdown =>
        (if wwDirty st then flushPendingWwSerialize ;; clearPendingWwEdits else ret tt) ;;
        st1 <- get ;;
        runProgrammatic (mdSetMarkdown (canonicalMd st1))
    end.

(** [reset] *)
Definition reset : St unit :=
  runProgrammatic (wwSetModel [] true ;; mdSetMarkdown EmptyString) ;;
  clearPendingWwEdits ;;
  modify (setCanonicalMd EmptyString) ;;
  modify (setWwDirty false) ;;
  modify (setBaseline None).

End Core.

Arguments mode {Node Snapshot}.
Arguments canonicalMd {Node Snapshot}.
Arguments mdText {Node Snapshot}.
Arguments wwDoc {Node Snapshot}.
Arguments wwDirty {Node Snapshot}.
Arguments wwSerializeTimer {Node Snapshot}.
Arguments pendingWwRanges {Node Snapshot}.
Arguments wwBaselineDoc {Node Snapshot}.
Arguments suppressSnapshot {Node Snapshot}.
Arguments snapshotHistory {Node Snapshot}.
Arguments clock {Node Snapshot}.
End Coordinator.

(** ** A paragraph-only instance of the collaborators *)
Module Paragraphs.
Import EditorCore.

Definition tab : ascii := Ascii.ascii_of_nat 9.

(** Modelled from the spec: the markdown grammar of ToastMark (not in the
    sources) restricted to paragraphs; a blank line holds only spaces and
    tabs, and a top-level block is a maximal run of non-blank lines. *)
Definition isBlankLine (l : string) : bool :=
  forallb (fun c => Ascii.eqb c " "%char || Ascii.eqb c tab) (list_ascii_of_string l).

(** Top-level block line ranges (1-based, inclusive) of the lines from
    line [n] on, [open] being the start line of the paragraph in progress. *)
Fixpoint blocksOf (ls : list string) (n : Z) (open : option Z) : list LineRange :=
  match ls with
  | [] => match open with
          | Some s => [{| startLine := s; endLine := n - 1 |}]
          | None => []
          end
  | l :: r =>
      if isBlankLine l then
        match open with
        | Some s => {| startLine := s; endLine := n - 1 |} :: blocksOf r (n + 1) None
        | None => blocksOf r (n + 1) None
        end
      else blocksOf r (n + 1) (match open with Some s => Some s | None => Some n end)
  end.

(** Modelled from the spec: [parse(text)] with each top-level block's
    [getMdStartLine]/[getMdEndLine]. *)
Definition mdBlockLines (s : string) : list LineRange := blocksOf (Js.split s) 1 None.

(** A paragraph node holds its lines. *)
Definition Node := list string.

Fixpoint listEqb {A} (eqb : A -> A -> bool) (a b : list A) : bool :=
  match a, b with
  | [], [] => true
  | x :: xs, y :: ys => eqb x y && listEqb eqb xs ys
  | _, _ => false
  end.

Definition nodeEqb (a b : Node) : bool := listEqb String.eqb a b.

(** ProseMirror's structural [eq] on documents. *)
Definition docEq (a b : list Node) : bool := listEqb nodeEqb a b.

(** Modelled from the spec: [convertor.toMarkdownText] on a document of
    paragraphs: lines joined by a newline, blocks separated by a blank line. *)
Definition toMarkdownText (doc : list Node) : string :=
  Js.join (Js.NL ++ Js.NL)%string (map (Js.join Js.NL) doc).

Fixpoint paragraphsOf (ls : list string) (cur : list string) : list Node :=
  match ls with
  | [] => match cur with [] => [] | _ => [cur] end
  | l :: r =>
      if isBlankLine l then
        match cur with
        | [] => paragraphsOf r []
        | _ => cur :: paragraphsOf r []
        end
      else paragraphsOf r (cur ++ [l])
  end.

(** Modelled from the spec: [convertor.toWysiwygModel(parse(text))]. *)
Definition toWysiwygModel (s : string) : list Node := paragraphsOf (Js.split s) [].

(** The derived block range of an edit, taken here as the whole document. *)
Definition diffInfo (prev next : list Node) : list Z * BlockRange * bool :=
  ([], {| startIndex := 0; endIndex := Z.of_nat (List.length next) - 1 |}, true).

(** Snapshots reduced to their markdown. *)
Definition Snapshot := string.
Definition snapMd (s : Snapshot) : string := s.
Definition createSnapshot (st : Coordinator.Core Node Snapshot) (md : string) : Snapshot := md.

Definition Core := Coordinator.Core Node Snapshot.

Definition mkCore (m : Coordinator.EditorType) (canonical mdtext : string) (doc : list Node)
  (dirty : bool) (pending : list WwBlockRange) (baseline : option (list Node))
  (history : SnapshotHistory.t Snapshot) : Core :=
  {| Coordinator.mode := m; Coordinator.canonicalMd := canonical;
     Coordinator.mdText := mdtext; Coordinator.wwDoc := doc;
     Coordinator.wwDirty := dirty; Coordinator.wwSerializeTimer := None;
     Coordinator.pendingWwRanges := pending; Coordinator.wwBaselineDoc := baseline;
     Coordinator.suppressSnapshot := false; Coordinator.snapshotHistory := history;
     Coordinator.clock := 0 |}.

Definition flushSerialize : Coordinator.St Node Snapshot string :=
  Coordinator.flushSerialize Node docEq toMarkdownText mdBlockLines Snapshot.

Definition flushSerializeAndMaybePush : Coordinator.St Node Snapshot string :=
  Coordinator.flushSerializeAndMaybePush Node docEq toMarkdownText mdBlockLines Snapshot
    createSnapshot.

(** A line holding no newline. *)
Definition hasNL (l : string) : bool :=
  existsb (fun c => Ascii.eqb c Js.nl) (list_ascii_of_string l).

Definition validLine (l : string) : bool := negb (isBlankLine l) && negb (hasNL l).

(** A document the grammar reads back block for block: non-empty
    paragraphs of non-blank lines. *)
Definition validDoc (doc : list Node) : bool :=
  forallb (fun b => match b with [] => false | _ => forallb validLine b end) doc.

(** The lines of [toMarkdownText doc]: the blocks' lines, one empty line
    between two blocks. *)
Fixpoint docLines (doc : list Node) : list string :=
  match doc with
  | [] => []
  | [b] => b
  | b :: rest => b ++ EmptyString :: docLines rest
  end.

(** The line ranges of the blocks of [docLines doc] from line [n] on. *)
Fixpoint positions (doc : list Node) (n : Z) : list LineRange :=
  match doc with
  | [] => []
  | b :: rest =>
      {| startLine := n; endLine := n + Z.of_nat (List.length b) - 1 |}
      :: positions rest (n + Z.of_nat (List.length b) + 1)
  end.

(** Lines taken by the blocks, each with its following separator line. *)
Fixpoint sz (doc : list Node) : nat :=
  match doc with
  | [] => O
  | b :: rest => (List.length b + 1 + sz rest)%nat
  end.

(** [docLines] of the blocks before (resp. after) an edited run. *)
Definition lead (pre : list Node) : list string :=
  match pre with [] => [] | _ => docLines pre ++ [EmptyString] end.
Definition trail (post : list Node) : list string :=
  match post with [] => [] | _ => EmptyString :: docLines post end.

(** A line (resp. block) of a document the grammar reads back. *)
Definition okLine (l : string) : Prop := isBlankLine l = false /\ hasNL l = false.
Definition okBlock (b : Node) : Prop := b <> [] /\ Forall okLine b.

End Paragraphs.

(** ** The spec's reading of a patch batch (compared with [applyMdPatches]) *)
Module PatchSpec.
Import EditorCore.

(** Each patch replaces the lines [startLine..endLine] of the ORIGINAL text
    (1-based, inclusive) by the lines [splitText] gives for its text; [pos]
    is the original number of the first line of [lines]. *)
Fixpoint replaceOriginal (splitText : string -> list string) (lines : list string) (pos : Z)
  (ps : list MdPatch) : list string :=
  match ps with
  | [] => lines
  | p :: rest =>
      firstn (Z.to_nat (startLine (range p) - pos)) lines
      ++ splitText (text p)
      ++ replaceOriginal splitText (skipn (Z.to_nat (endLine (range p) - pos + 1)) lines)
           (endLine (range p) + 1) rest
  end.

(** Ascending, pairwise disjoint line ranges inside lines [pos..maxLine]. *)
Fixpoint disjointInRange (pos maxLine : Z) (ps : list MdPatch) : bool :=
  match ps with
  | [] => true
  | p :: rest =>
      (pos <=? startLine (range p)) && (startLine (range p) <=? endLine (range p))
      && (endLine (range p) <=? maxLine)
      && disjointInRange (endLine (range p) + 1) maxLine rest
  end.

(** The order of the [sort] comparator. *)
Definition keyLe (a b : MdPatch) : Prop := patchKey a <= patchKey b.

End PatchSpec.

(** ** Interval vocabulary for [addWwEditRange] *)
Module RangeSpec.
Import EditorCore.

(** [outer] contains [inner] as a block interval. *)
Definition within (inner outer : BlockRange) : Prop :=
  startIndex outer <= startIndex inner /\ endIndex inner <= endIndex outer.

Definition touchesWw (e n : WwBlockRange) : bool :=
  rangesOverlapOrTouch (oldRange e) (oldRange n)
  || rangesOverlapOrTouch (newRange e) (newRange n).

Definition mergeOld (acc : BlockRange) (e : WwBlockRange) : BlockRange :=
  mergeLineRange (oldRange e) acc.
Definition mergeNew (acc : BlockRange) (e : WwBlockRange) : BlockRange :=
  mergeLineRange (newRange e) acc.

End RangeSpec.

(** ** The debug helpers of [editorCore.ts]: [hashMd] and [tailText]. *)
Module DebugHelpers.

(** [ToInt32] of an integral number, the result of [x | 0]. *)
Definition toInt32 (x : Z) : Z :=
  let m := x mod 2 ^ 32 in if m >=? 2 ^ 31 then m - 2 ^ 32 else m.

(** [ToUint32] of an integral number, the result of [x >>> 0]. *)
Definition toUint32 (x : Z) : Z := x mod 2 ^ 32.

(** [text.charCodeAt(i)] *)
Definition charCodeAt (c : ascii) : Z := Z.of_nat (Ascii.nat_of_ascii c).

(** [`${n}`] for a non-negative integer [n]. *)
Definition numberToString (n : Z) : string :=
  NilZero.string_of_uint (N.to_uint (Z.to_N n)).

(** The loop of [hashMd]. *)
Definition hashLoop (text : string) : Z :=
  fold_left (fun hash c => toInt32 (hash * 31 + charCodeAt c)) (list_ascii_of_string text) 0.

(** [hashMd] *)
Definition hashMd (text : string) : string :=
  String "h" (numberToString (toUint32 (hashLoop text))).

(** [text.slice(start)] *)
Definition sliceFrom (text : string) (start : Z) : string :=
  let len := Js.strlen text in
  let s := if start <? 0 then Z.max (len + start) 0 else Z.min start len in
  substring (Z.to_nat s) (Z.to_nat (len - s)) text.

(** [tailText(text, limit)] *)
Definition tailText (text : string) (limit : Z) : string :=
  if Js.strlen text <=? limit then text else sliceFrom text (Js.strlen text - limit).

End DebugHelpers.

(** ** The selection stored in a snapshot ([getSelectionForSnapshot]) and
    its restoration ([restoreSelection]); the selection read from the
    current view (the text view's, or the structured view's mapped with
    [getEditorToMdPos]) is the input [sel]. *)
Module Selection.
Import EditorCore.

Record SnapshotSelection := { anchor : MdPos; head : MdPos; collapsed : bool }.

(** [getSelectionForSnapshot(md)] *)
Definition getSelectionForSnapshot (md : string) (sel : MdPos * MdPos) : SnapshotSelection :=
  let clampedAnchor := clampMdPos md (fst sel) in
  let clampedHead := clampMdPos md (snd sel) in
  {| anchor := clampedAnchor; head := clampedHead;
     collapsed := (fst clampedAnchor =? fst clampedHead)
                  && (snd clampedAnchor =? snd clampedHead) |}.

(** The positions [restoreSelection(selection, md)] hands to the text view's
    [setSelection] (or maps with [getMdToEditorPos]). *)
Definition restoreSelection (selection : SnapshotSelection) (md : string) : MdPos * MdPos :=
  (clampMdPos md (anchor selection), clampMdPos md (head selection)).

End Selection.

(** ** [convertPosToMatchEditorMode]; the ProseMirror position mappings
    [getEditorToMdPos] and [getMdToEditorPos] over the text view's document
    are section variables. *)
Module ConvertPos.
Import EditorCore Coordinator.

(** [EditorPos = number | MdPos] *)
Inductive EditorPos := PosNum (n : Z) | PosArr (p : MdPos).

Definition isArray (p : EditorPos) : bool :=
  match p with PosArr _ => true | PosNum _ => false end.

Section Convert.
Variable getEditorToMdPos : Z -> Z -> MdPos * MdPos.
Variable getMdToEditorPos : MdPos -> MdPos -> Z * Z.

(** [convertPosToMatchEditorMode(start, end = start, mode = this.mode)];
    an omitted argument is [None]; [inl msg] is the thrown [Error]. *)
Definition convertPosToMatchEditorMode (thisMode : EditorType) (start : EditorPos)
  (end_ : option EditorPos) (mode_ : option EditorType) : string + (EditorPos * EditorPos) :=
  let end' := match end_ with Some e => e | None => start end in
  let mode := match mode_ with Some m => m | None => thisMode end in
  let isFromArray := isArray start in
  let isToArray := isArray end' in
  if negb (Bool.eqb isFromArray isToArray) then inl "Types of arguments must be same"%string
  else
    match mode, start, end' with
    | Markdown, PosNum s, PosNum e =>
        let '(f, t) := getEditorToMdPos s e in inr (PosArr f, PosArr t)
    | Wysiwyg, PosArr s, PosArr e =>
        let '(f, t) := getMdToEditorPos s e in inr (PosNum f, PosNum t)
    | _, _, _ => inr (start, end')
    end.

End Convert.
End ConvertPos.

(** * Proofs *)

Module HistoryFacts.
Import SnapshotHistory.

Section Facts.
Variable A : Type.

Lemma pop_snoc (l : list A) (x : A) : Js.pop (l ++ [x]) = (Some x, l).
Proof. unfold Js.pop. rewrite rev_app_distr. simpl. now rewrite rev_involutive. Qed.

Lemma lastOpt_snoc (l : list A) (x : A) : Js.lastOpt (l ++ [x]) = Some x.
Proof. unfold Js.lastOpt. now rewrite rev_app_distr. Qed.

Lemma pop_cases (l : list A) :
  (l = [] /\ Js.pop l = (None, [])) \/ exists u x, l = u ++ [x] /\ Js.pop l = (Some x, u).
Proof.
  destruct l as [|y l'] using rev_ind.
  - left. split; reflexivity.
  - right. exists l', y. split; [reflexivity | apply pop_snoc].
Qed.

Lemma pushAll_cons (first : A) (rest : list A) (h : t A) :
  pushAll (first :: rest) h = mk (undoStack h ++ first :: rest) [].
Proof.
  revert h first. induction rest as [|y rest IH] using rev_ind; intros h first.
  - reflexivity.
  - unfold pushAll in *. rewrite app_comm_cons, fold_left_app, IH.
    unfold push. simpl. now rewrite <- app_assoc.
Qed.

Lemma undo_snoc (u : list A) (x : A) (r : list A) :
  u <> [] -> undo (mk (u ++ [x]) r) = (Js.lastOpt u, mk u (r ++ [x])).
Proof.
  intros Hu. unfold undo, canUndo. simpl.
  rewrite length_app. simpl.
  destruct u as [|y u']; [congruence|]. simpl.
  replace (Nat.ltb 1 (S (length u' + 1))) with true
    by (symmetry; apply Nat.ltb_lt; lia).
  simpl. rewrite app_comm_cons, pop_snoc. reflexivity.
Qed.

Lemma undoMany_floor (first : A) (rest r : list A) :
  undoMany (List.length rest) (mk (first :: rest) r)
  = (map Some (tl (rev (first :: rest))), mk [first] (r ++ rev rest)).
Proof.
  revert r. induction rest as [|x rest IH] using rev_ind; intros r.
  - simpl. now rewrite app_nil_r.
  - replace (length (rest ++ [x])) with (S (length rest)) by (rewrite length_app; simpl; lia).
    replace (rev (first :: rest ++ [x])) with (x :: rev (first :: rest))
      by (rewrite app_comm_cons, rev_app_distr; reflexivity).
    replace (rev (rest ++ [x])) with (x :: rev rest) by (rewrite rev_app_distr; reflexivity).
    cbn [undoMany]. rewrite app_comm_cons, undo_snoc by discriminate.
    rewrite IH.
    rewrite <- app_assoc. cbn [tl app].
    unfold Js.lastOpt.
    destruct (rev (first :: rest)) as [|y ys] eqn:E.
    + simpl in E. destruct (rev rest); discriminate.
    + reflexivity.
Qed.

Lemma undo_preserves_sequence (h : t A) :
  undoStack (snd (undo h)) ++ rev (redoStack (snd (undo h)))
  = undoStack h ++ rev (redoStack h).
Proof.
  unfold undo. destruct (negb (canUndo h)); [reflexivity|].
  destruct (pop_cases (undoStack h)) as [[Hl Hp]|(u & x & Hl & Hp)]; rewrite Hp; simpl.
  - now rewrite Hl.
  - rewrite Hl, rev_app_distr. simpl. now rewrite <- app_assoc.
Qed.

Lemma redo_preserves_sequence (h : t A) :
  undoStack (snd (redo h)) ++ rev (redoStack (snd (redo h)))
  = undoStack h ++ rev (redoStack h).
Proof.
  unfold redo. destruct (negb (canRedo h)); [reflexivity|].
  destruct (pop_cases (redoStack h)) as [[Hl Hp]|(r & x & Hl & Hp)]; rewrite Hp; simpl.
  - now rewrite Hl.
  - rewrite Hl, rev_app_distr. simpl. now rewrite <- app_assoc.
Qed.

Lemma undo_result_in_stack (h : t A) (x : A) :
  fst (undo h) = Some x -> In x (undoStack h).
Proof.
  unfold undo. destruct (negb (canUndo h)); simpl; [discriminate|].
  destruct (pop_cases (undoStack h)) as [[Hl Hp]|(u & y & Hl & Hp)]; rewrite Hp; simpl.
  - unfold Js.lastOpt. simpl. discriminate.
  - unfold Js.lastOpt. intros H. rewrite Hl. apply in_or_app. left.
    destruct (rev u) as [|z zs] eqn:E; [discriminate|].
    injection H as ->. apply in_rev. rewrite E. now left.
Qed.

Lemma redo_result_in_stack (h : t A) (x : A) :
  fst (redo h) = Some x -> In x (redoStack h).
Proof.
  unfold redo. destruct (negb (canRedo h)); simpl; [discriminate|].
  destruct (pop_cases (redoStack h)) as [[Hl Hp]|(r & y & Hl & Hp)]; rewrite Hp; simpl.
  - discriminate.
  - intros H. injection H as ->. rewrite Hl. apply in_or_app. right. now left.
Qed.

End Facts.

(** C3: pushing [first :: rest] into a fresh history, [undo()] called
    [length rest] times returns the earlier snapshots newest first, ending
    with [first]; the floor is then reached ([canUndo() = false], [undo()]
    returns [null]); after any [push] the redo stack is empty and [redo()]
    returns [null]; [undo]/[redo] only move snapshots between the stacks
    (the sequence [undoStack ++ reverse redoStack] is unchanged and a
    returned snapshot is one that was on a stack). *)
Theorem snapshot_history_stack_law (A : Type) (first : A) (rest : list A) :
  undoMany (List.length rest) (pushAll (first :: rest) empty)
    = (map Some (tl (rev (first :: rest))), mk [first] (rev rest))
  /\ canUndo (mk [first] (rev rest)) = false
  /\ fst (undo (mk [first] (rev rest))) = None
  /\ (forall (s : A) h, redoStack (push s h) = [] /\ fst (redo (push s h)) = None)
  /\ (forall h : t A, undoStack (snd (undo h)) ++ rev (redoStack (snd (undo h)))
                      = undoStack h ++ rev (redoStack h)
                   /\ undoStack (snd (redo h)) ++ rev (redoStack (snd (redo h)))
                      = undoStack h ++ rev (redoStack h))
  /\ (forall (h : t A) x, (fst (undo h) = Some x -> In x (undoStack h))
                        /\ (fst (redo h) = Some x -> In x (redoStack h))).
Proof.
  split; [|split; [|split; [|split; [|split]]]].
  - rewrite pushAll_cons. simpl. apply undoMany_floor.
  - reflexivity.
  - reflexivity.
  - intros s h. split; reflexivity.
  - intros h. split; [apply undo_preserves_sequence | apply redo_preserves_sequence].
  - intros h x. split; [apply undo_result_in_stack | apply redo_result_in_stack].
Qed.

End HistoryFacts.

Module ClampFacts.
Import EditorCore.

Lemma split_not_nil (s : string) : Js.split s <> [].
Proof.
  induction s as [|c s IH]; simpl; [discriminate|].
  destruct (Ascii.eqb c Js.nl); [discriminate|].
  destruct (Js.split s); discriminate.
Qed.

(** C9: [clampMdPos] returns a valid position of [md] for every input: the
    line lies in [1, lineCount] (the line count of [md.split('\n')], at least
    1), the column in [1, length of that line + 1]; an in-range line or
    column is kept, a line beyond the count gives the last line, a column
    beyond the line gives [length + 1], and zero or negative inputs give
    [(1, 1)]. *)
Theorem clampMdPos_valid (md : string) (l c : Z) :
  let lines := Js.split md in
  let lineCount := Z.of_nat (length lines) in
  let p := clampMdPos md (l, c) in
  1 <= fst p <= lineCount
  /\ (exists lineText, nth_error lines (Z.to_nat (fst p - 1)) = Some lineText
        /\ 1 <= snd p <= Js.strlen lineText + 1
        /\ (Js.strlen lineText + 1 < c -> snd p = Js.strlen lineText + 1)
        /\ (1 <= c <= Js.strlen lineText + 1 -> snd p = c))
  /\ (1 <= l <= lineCount -> fst p = l)
  /\ (lineCount < l -> fst p = lineCount)
  /\ (l <= 0 -> c <= 0 -> p = (1, 1)).
Proof.
  cbv zeta. unfold clampMdPos. cbn [fst snd].
  assert (Hn : (1 <= length (Js.split md))%nat)
    by (destruct (Js.split md) eqn:E; [exfalso; now apply (split_not_nil md)|simpl; lia]).
  set (n := Z.of_nat (length (Js.split md))).
  assert (Hn' : 1 <= n) by (unfold n; lia).
  set (li := Z.min (Z.max l 1) (Z.max n 1)).
  assert (Hli : 1 <= li <= n) by (unfold li; lia).
  assert (Hnth : exists t, nth_error (Js.split md) (Z.to_nat (li - 1)) = Some t).
  { destruct (nth_error (Js.split md) (Z.to_nat (li - 1))) eqn:E; [eauto|].
    apply nth_error_None in E. unfold n in Hli. lia. }
  destruct Hnth as [t Ht].
  unfold JsArray.at_.
  replace (li - 1 <? 0) with false by (symmetry; apply Z.ltb_ge; lia).
  rewrite Ht. cbn [fst snd].
  assert (Hlen : 0 <= Js.strlen t) by (unfold Js.strlen; lia).
  split; [exact Hli|].
  split; [exists t; split; [reflexivity|]; repeat split; intros; lia|].
  split; [intros; unfold li; lia|].
  split; [intros; unfold li; lia|].
  intros Hl Hc.
  assert (li = 1) as Hli1 by (unfold li; lia).
  rewrite Hli1 in Ht |- *. f_equal. lia.
Qed.

End ClampFacts.

Module RangeFacts.
Import EditorCore RangeSpec.

Lemma touch_mono (e a b : BlockRange) :
  within a b -> rangesOverlapOrTouch e a = true -> rangesOverlapOrTouch e b = true.
Proof.
  unfold within, rangesOverlapOrTouch. intros [H1 H2] H.
  apply andb_true_iff in H as [Ha Hb]. apply Z.leb_le in Ha, Hb.
  apply andb_true_iff. split; apply Z.leb_le; lia.
Qed.

Lemma within_merge (e a b : BlockRange) : within b a -> within b (mergeLineRange e a).
Proof. unfold within, mergeLineRange. simpl. lia. Qed.

Lemma addStep_fold (n : WwBlockRange) (pending : list WwBlockRange) :
  forall next merged,
  within (oldRange n) (oldRange next) -> within (newRange n) (newRange next) ->
  exists kept absorbed,
    snd (fold_left addStep pending (next, merged)) = merged ++ kept
    /\ Permutation pending (kept ++ absorbed)
    /\ (forall k, In k kept -> touchesWw k n = false)
    /\ (forall e, In e pending -> touchesWw e n = true -> In e absorbed)
    /\ oldRange (fst (fold_left addStep pending (next, merged)))
       = fold_left mergeOld absorbed (oldRange next)
    /\ newRange (fst (fold_left addStep pending (next, merged)))
       = fold_left mergeNew absorbed (newRange next)
    /\ within (oldRange n) (oldRange (fst (fold_left addStep pending (next, merged))))
    /\ within (newRange n) (newRange (fst (fold_left addStep pending (next, merged)))).
Proof.
  induction pending as [|e rest IH]; intros next merged Ho Hn.
  - exists [], []. simpl. rewrite app_nil_r.
    repeat split; try tauto; try apply Ho; try apply Hn; constructor.
  - simpl. unfold addStep at 2.
    destruct (rangesOverlapOrTouch (oldRange e) (oldRange next)
              || rangesOverlapOrTouch (newRange e) (newRange next)) eqn:Et.
    + edestruct IH as (kept & absorbed & H1 & H2 & H3 & H4 & H5 & H6 & H7 & H8).
      3: { exists kept, (e :: absorbed).
           split; [exact H1|]. split; [now apply Permutation_cons_app|].
           split; [exact H3|].
           split; [intros x [<-|Hx] Hx'; [now left | right; auto]|].
           split; [exact H5|]. split; [exact H6|]. split; [exact H7|exact H8]. }
      * simpl. now apply within_merge.
      * simpl. now apply within_merge.
    + edestruct (IH next (merged ++ [e]) Ho Hn)
        as (kept & absorbed & H1 & H2 & H3 & H4 & H5 & H6 & H7 & H8).
      exists (e :: kept), absorbed.
      split; [rewrite H1, <- app_assoc; reflexivity|].
      split; [simpl; now apply perm_skip|].
      assert (He : touchesWw e n = false).
      { unfold touchesWw. apply orb_false_iff in Et as [Et1 Et2].
        destruct (rangesOverlapOrTouch (oldRange e) (oldRange n)) eqn:E1.
        - rewrite (touch_mono _ _ _ Ho E1) in Et1. discriminate.
        - destruct (rangesOverlapOrTouch (newRange e) (newRange n)) eqn:E2; [|reflexivity].
          rewrite (touch_mono _ _ _ Hn E2) in Et2. discriminate. }
      split; [intros k [<-|Hk]; [exact He|auto]|].
      split; [intros x [<-|Hx] Hx'; [congruence|auto]|].
      split; [exact H5|]. split; [exact H6|]. split; [exact H7|exact H8].
Qed.

Lemma normalize_ordered (r : BlockRange) :
  startIndex (normalizeBlockRange r) <= endIndex (normalizeBlockRange r).
Proof. unfold normalizeBlockRange. simpl. lia. Qed.

Lemma within_ordered (a b : BlockRange) :
  startIndex a <= endIndex a -> within a b -> startIndex b <= endIndex b.
Proof. unfold within. lia. Qed.

(** C7: [addWwEditRange] normalises the incoming range ([n] below) and
    returns the ranges it keeps followed by one range [next]; every
    accumulated range whose [oldRange] or [newRange] overlaps or touches
    [n]'s is absorbed into [next] (not kept), [next]'s intervals are the
    min-of-starts / max-of-ends merges of [n]'s with the absorbed ones,
    taken independently for [oldRange] and [newRange], and satisfy
    [startIndex <= endIndex]. From an empty set, recording old ranges
    [[0,2]] then [[3,5]] leaves exactly one range, with old range [[0,5]]. *)
Theorem addWwEditRange_merges (pending : list WwBlockRange) (r : WwBlockRange) :
  let n := {| oldRange := normalizeBlockRange (oldRange r);
              newRange := normalizeBlockRange (newRange r) |} in
  (exists kept absorbed next,
     addWwEditRange pending r = kept ++ [next]
     /\ Permutation pending (kept ++ absorbed)
     /\ (forall e, In e pending -> touchesWw e n = true -> In e absorbed /\ ~ In e kept)
     /\ oldRange next = fold_left mergeOld absorbed (oldRange n)
     /\ newRange next = fold_left mergeNew absorbed (newRange n)
     /\ startIndex (oldRange next) <= endIndex (oldRange next)
     /\ startIndex (newRange next) <= endIndex (newRange next))
  /\ (forall a b c d,
        exists nr,
          addWwEditRange
            (addWwEditRange [] {| oldRange := {| startIndex := 0; endIndex := 2 |};
                                  newRange := {| startIndex := a; endIndex := b |} |})
            {| oldRange := {| startIndex := 3; endIndex := 5 |};
               newRange := {| startIndex := c; endIndex := d |} |}
          = [{| oldRange := {| startIndex := 0; endIndex := 5 |}; newRange := nr |}]).
Proof.
  cbv zeta. split.
  - set (n := {| oldRange := normalizeBlockRange (oldRange r);
                 newRange := normalizeBlockRange (newRange r) |}).
    destruct (addStep_fold n pending n [])
      as (kept & absorbed & H1 & H2 & H3 & H4 & H5 & H6 & H7 & H8);
      [unfold within; lia | unfold within; lia |].
    unfold addWwEditRange. fold n.
    destruct (fold_left addStep pending (n, [])) as [next merged] eqn:E.
    simpl in H1, H5, H6, H7, H8.
    exists kept, absorbed, next.
    split; [now rewrite H1|].
    split; [exact H2|].
    split.
    { intros e He Ht. split; [auto|]. intros Hk. specialize (H3 e Hk). congruence. }
    split; [exact H5|]. split; [exact H6|].
    split; eapply within_ordered; eauto; apply normalize_ordered.
  - intros a b c d. unfold addWwEditRange. simpl.
    unfold addStep. simpl.
    eexists. reflexivity.
Qed.

End RangeFacts.

Module PatchFacts.
Import EditorCore PatchSpec.

Lemma insertBy_perm (x : MdPatch) (l : list MdPatch) :
  Permutation (x :: l) (JsArray.insertBy patchKey x l).
Proof.
  induction l as [|y l IH]; simpl; [reflexivity|].
  destruct (patchKey x <? patchKey y); [reflexivity|].
  rewrite perm_swap. now apply perm_skip.
Qed.

Lemma insertBy_sorted (x : MdPatch) (l : list MdPatch) :
  Sorted keyLe l -> Sorted keyLe (JsArray.insertBy patchKey x l).
Proof.
  induction 1 as [|y l Hs IH Hhd]; simpl.
  - repeat constructor.
  - destruct (patchKey x <? patchKey y) eqn:E.
    + apply Z.ltb_lt in E. constructor; [constructor; auto|]. constructor. unfold keyLe. lia.
    + apply Z.ltb_ge in E. constructor; [exact IH|].
      destruct l as [|z l]; simpl.
      * constructor. unfold keyLe. lia.
      * inversion Hhd; subst. destruct (patchKey x <? patchKey z) eqn:E2.
        -- constructor. unfold keyLe. lia.
        -- constructor. assumption.
Qed.

Lemma sortBy_sorted_perm (l acc : list MdPatch) :
  Sorted keyLe acc ->
  Sorted keyLe (fold_left (fun a x => JsArray.insertBy patchKey x a) l acc)
  /\ Permutation (acc ++ l) (fold_left (fun a x => JsArray.insertBy patchKey x a) l acc).
Proof.
  revert acc. induction l as [|x l IH]; intros acc Hs; simpl.
  - now rewrite app_nil_r.
  - destruct (IH (JsArray.insertBy patchKey x acc)) as [H1 H2]; [now apply insertBy_sorted|].
    split; [exact H1|].
    rewrite <- H2. rewrite <- insertBy_perm. simpl. symmetry. apply Permutation_middle.
Qed.

Lemma join_nonempty_match (l : list string) :
  match l with [] => EmptyString | _ => Js.join Js.NL l end = Js.join Js.NL l.
Proof. destruct l; reflexivity. Qed.

Lemma fold_patchStep (ps : list MdPatch) :
  forall done orig pos off,
  off = Z.of_nat (length done) - (pos - 1) ->
  disjointInRange pos (pos - 1 + Z.of_nat (length orig)) ps = true ->
  fst (fold_left patchStep ps (done ++ orig, off))
  = done ++ replaceOriginal splitLines orig pos ps.
Proof.
  induction ps as [|p rest IH]; intros done orig pos off Hoff Hwf.
  - reflexivity.
  - simpl in Hwf. apply andb_true_iff in Hwf as [Hwf Hrest].
    apply andb_true_iff in Hwf as [Hwf He]. apply andb_true_iff in Hwf as [Hs Hse].
    apply Z.leb_le in Hs, Hse, He.
    set (s := startLine (range p)) in *. set (e := endLine (range p)) in *.
    set (rep := splitLines (text p)).
    simpl fold_left. unfold patchStep. fold s e rep.
    set (k := Z.to_nat (s - pos)). set (m := Z.to_nat (e - pos + 1)).
    assert (Hsplice : JsArray.splice (done ++ orig) (s - 1 + off)
                        (e - 1 + off - (s - 1 + off) + 1) rep
                      = (done ++ firstn k orig ++ rep) ++ skipn m orig).
    { unfold JsArray.splice. rewrite length_app.
      replace (s - 1 + off <? 0) with false by (symmetry; apply Z.ltb_ge; lia).
      replace (Z.min (s - 1 + off) (Z.of_nat (length done + length orig)))
        with (s - 1 + off) by lia.
      replace (Z.min (Z.max (e - 1 + off - (s - 1 + off) + 1) 0)
                 (Z.of_nat (length done + length orig) - (s - 1 + off)))
        with (e - s + 1) by lia.
      replace (Z.to_nat (s - 1 + off)) with (length done + k)%nat by (unfold k; lia).
      replace (Z.to_nat (s - 1 + off + (e - s + 1))) with (length done + m)%nat
        by (unfold m; lia).
      rewrite firstn_app, skipn_app.
      replace (length done + k - length done)%nat with k by lia.
      replace (length done + m - length done)%nat with m by lia.
      rewrite firstn_all2 by lia. rewrite skipn_all2 by lia.
      simpl. now rewrite <- !app_assoc. }
    rewrite Hsplice.
    rewrite (IH (done ++ firstn k orig ++ rep) (skipn m orig) (e + 1)).
    + simpl. fold s e. rewrite <- !app_assoc. reflexivity.
    + rewrite !length_app, length_firstn. unfold k. lia.
    + rewrite length_skipn. unfold m.
      replace (e + 1 - 1 + Z.of_nat (length orig - Z.to_nat (e - pos + 1)))
        with (pos - 1 + Z.of_nat (length orig)) by lia.
      exact Hrest.
Qed.

(** C8, as stated (counterexample): reading "the patch's text split on
    newlines" as [text.split('\n')], a patch with the empty text over line 2
    of ["a\nb\nc"] would leave an empty line 2 (["a\n\nc"]); [applyMdPatches]
    removes the line instead (["a\nc"]), since [splitLines('')] is [[]]. *)
Lemma applyMdPatches_empty_text_removes_lines :
  let md := ("a" ++ Js.NL ++ "b" ++ Js.NL ++ "c")%string in
  let ps := [{| range := {| startLine := 2; endLine := 2 |}; text := EmptyString |}] in
  disjointInRange 1 (Z.of_nat (length (Js.split md))) (JsArray.sortBy patchKey ps) = true
  /\ applyMdPatches md ps = ("a" ++ Js.NL ++ "c")%string
  /\ Js.join Js.NL (replaceOriginal Js.split (Js.split md) 1 (JsArray.sortBy patchKey ps))
     = ("a" ++ Js.NL ++ Js.NL ++ "c")%string
  /\ applyMdPatches md ps
     <> Js.join Js.NL (replaceOriginal Js.split (Js.split md) 1 (JsArray.sortBy patchKey ps)).
Proof. vm_compute. split; [reflexivity|]. split; [reflexivity|]. split; [reflexivity|].
  discriminate. Qed.

(** C8 (amended): [applyMdPatches] orders the patches by ascending
    [startLine] (a sorted permutation of the batch); when the ordered line
    ranges are pairwise disjoint, each inside the text, the result is the
    original lines with every range [[startLine, endLine]] (numbered in the
    ORIGINAL text) replaced by the patch text's lines, [splitLines] giving no
    line at all for an empty text: the running offset makes the later
    splices land at the original lines. *)
Theorem applyMdPatches_replaces_original_ranges (md : string) (ps : list MdPatch) :
  Sorted keyLe (JsArray.sortBy patchKey ps)
  /\ Permutation ps (JsArray.sortBy patchKey ps)
  /\ (disjointInRange 1 (Z.of_nat (length (Js.split md))) (JsArray.sortBy patchKey ps) = true ->
      applyMdPatches md ps
      = Js.join Js.NL (replaceOriginal splitLines (Js.split md) 1 (JsArray.sortBy patchKey ps))).
Proof.
  destruct (sortBy_sorted_perm ps [] (Sorted_nil _)) as [Hs Hp].
  split; [exact Hs|]. split; [exact Hp|].
  intros Hwf. unfold applyMdPatches.
  pose proof (fold_patchStep (JsArray.sortBy patchKey ps) [] (Js.split md) 1 0
                eq_refl Hwf) as H.
  cbn [app] in H.
  destruct (fold_left patchStep (JsArray.sortBy patchKey ps) (Js.split md, 0)) as [lines off].
  cbn [fst app] in H. rewrite H. apply join_nonempty_match.
Qed.

(** Witness for C8: two patches given out of order, one of them deleting
    the first line, on a three-line text. *)
Lemma applyMdPatches_replaces_original_ranges_witness :
  let md := ("a" ++ Js.NL ++ "b" ++ Js.NL ++ "c")%string in
  let ps := [{| range := {| startLine := 3; endLine := 3 |};
                text := ("x" ++ Js.NL ++ "y")%string |};
             {| range := {| startLine := 1; endLine := 1 |}; text := EmptyString |}] in
  disjointInRange 1 (Z.of_nat (length (Js.split md))) (JsArray.sortBy patchKey ps) = true
  /\ applyMdPatches md ps
     = Js.join Js.NL (replaceOriginal splitLines (Js.split md) 1 (JsArray.sortBy patchKey ps)).
Proof.
  cbv zeta. split; [reflexivity|].
  apply (proj2 (proj2 (applyMdPatches_replaces_original_ranges _ _))). reflexivity.
Defined.

End PatchFacts.

Module CoordinatorFacts.
Import EditorCore Coordinator.

Lemma insertBy_perm_any {A} (key : A -> Z) (x : A) (l : list A) :
  Permutation (x :: l) (JsArray.insertBy key x l).
Proof.
  induction l as [|y l IH]; simpl; [reflexivity|].
  destruct (key x <? key y); [reflexivity|].
  rewrite perm_swap. now apply perm_skip.
Qed.

Lemma sortBy_perm_any {A} (key : A -> Z) (l : list A) : Permutation l (JsArray.sortBy key l).
Proof.
  unfold JsArray.sortBy.
  assert (H : forall acc, Permutation (acc ++ l)
                (fold_left (fun a x => JsArray.insertBy key x a) l acc)).
  { induction l as [|x l IH]; intros acc; simpl.
    - now rewrite app_nil_r.
    - rewrite <- IH, <- insertBy_perm_any. simpl. symmetry. apply Permutation_middle. }
  apply (H []).
Qed.

Section Facts.
Variable Node : Type.
Variable docEq : list Node -> list Node -> bool.
Variable toMarkdownText : list Node -> string.
Variable toWysiwygModel : string -> list Node.
Variable mdBlockLines : string -> list LineRange.
Variable diffInfo : list Node -> list Node -> list Z * BlockRange * bool.
Variable Snapshot : Type.
Variable snapMd : Snapshot -> string.
Variable createSnapshot : Core Node Snapshot -> string -> Snapshot.

Local Abbreviation Core := (Core Node Snapshot).
Local Abbreviation flushSerialize' :=
  (flushSerialize Node docEq toMarkdownText mdBlockLines Snapshot).
Local Abbreviation flushSerializeAndMaybePush' :=
  (flushSerializeAndMaybePush Node docEq toMarkdownText mdBlockLines Snapshot createSnapshot).
Local Abbreviation reset' := (reset Node diffInfo Snapshot createSnapshot).
Local Abbreviation undoBySnapshot' :=
  (undoBySnapshot Node docEq toMarkdownText toWysiwygModel mdBlockLines diffInfo Snapshot
     snapMd createSnapshot).
Local Abbreviation setMarkdown' := (setMarkdown Node toWysiwygModel diffInfo Snapshot createSnapshot).
Local Abbreviation changeMode' :=
  (changeMode Node docEq toMarkdownText toWysiwygModel mdBlockLines diffInfo Snapshot
     createSnapshot).
Local Abbreviation getMarkdown' :=
  (getMarkdown Node docEq toMarkdownText mdBlockLines Snapshot createSnapshot).

(** C5: a flush ([flushSerializeAndMaybePush], run by the timer and by every
    forced flush) while the structured tree is structurally equal to the
    stored baseline returns the canonical markdown unchanged, pushes no
    snapshot, and leaves the pending range set empty and the dirty flag
    lowered. *)
Theorem flush_noop_on_baseline_equal_tree (st : Core) (b : list Node) :
  wwBaselineDoc st = Some b -> docEq (wwDoc st) b = true ->
  let '(st', r) := flushSerializeAndMaybePush' st in
  r = inr (canonicalMd st)
  /\ canonicalMd st' = canonicalMd st
  /\ snapshotHistory st' = snapshotHistory st
  /\ pendingWwRanges st' = []
  /\ wwDirty st' = false.
Proof.
  intros Hb Heq.
  unfold flushSerializeAndMaybePush, flushSerialize, bind, get, ret, modify,
    clearPendingWwEdits, setWwBaseline.
  destruct (pendingWwRanges st) as [|x xs] eqn:Hp.
  - simpl. rewrite String.eqb_refl. simpl.
    unfold bind, get, modify, ret. simpl.
    destruct (mode st); simpl; repeat split; assumption.
  - rewrite Hb, Heq. simpl. rewrite String.eqb_refl. simpl.
    unfold bind, get, modify, ret. simpl.
    destruct (mode st); simpl; repeat split.
Qed.

(** C2 (the listener as written): the payload [dispatchTransaction] emits
    for a user edit carries no [oldRange]/[newRange], so the [wwUserEdit]
    listener raises on [range.oldRange.startIndex] right after raising the
    dirty flag: no range is recorded and the serialization timer is not
    (re)started. *)
Theorem wwUserEdit_payload_not_recorded (st : Core) (ids : list Z) (rng : BlockRange)
  (missing : bool) :
  onWwUserEdit Node Snapshot (Some (wwUserEditPayload ids rng missing)) st
  = (setWwDirty Node Snapshot true st, inl TypeError)
  /\ pendingWwRanges (setWwDirty Node Snapshot true st) = pendingWwRanges st
  /\ wwSerializeTimer (setWwDirty Node Snapshot true st) = wwSerializeTimer st.
Proof. repeat split. Qed.

(** C10: [reset] clears the content, the pending state and the baseline but
    leaves the snapshot history as it was, so its size and the snapshot an
    undo would restore are unchanged; an [undoBySnapshot] right after the
    reset restores the snapshot below the top of the pre-reset history. *)
Theorem reset_keeps_snapshot_history (st : Core) :
  let '(st', r) := reset' st in
  r = inr tt
  /\ canonicalMd st' = EmptyString
  /\ mdText st' = EmptyString
  /\ wwDoc st' = []
  /\ wwSerializeTimer st' = None
  /\ pendingWwRanges st' = []
  /\ wwDirty st' = false
  /\ wwBaselineDoc st' = None
  /\ snapshotHistory st' = snapshotHistory st
  /\ SnapshotHistory.size (snapshotHistory st') = SnapshotHistory.size (snapshotHistory st)
  /\ (forall sn, fst (SnapshotHistory.undo (snapshotHistory st)) = Some sn ->
      canonicalMd (fst (undoBySnapshot' st')) = snapMd sn).
Proof.
  unfold reset, runProgrammatic, wwSetModel, mdSetMarkdown, onMdChange, clearPendingWwEdits,
    bind, get, modify, ret.
  simpl. destruct (wwDoc st); simpl; (repeat split); try reflexivity.
  all: intros sn Hu;
    unfold undoBySnapshot, flushPendingWwSerialize, applyProgrammatic, runProgrammatic,
      setMarkdown, mdSetMarkdown, onMdChange, clearPendingWwEdits, setWwBaseline, wwSetModel,
      bind, get, modify, ret; simpl;
    destruct (SnapshotHistory.undo (snapshotHistory st)) as [o h]; simpl in Hu; subst o; simpl.
  all: destruct (mode st); simpl; try destruct (toWysiwygModel (snapMd sn)); simpl;
    try destruct (mode st); reflexivity.
Qed.

(** C6: in text mode, [setMarkdown(M)], a switch to the structured view and
    back, and [getMarkdown()] return exactly [M], whatever the structured
    conversion does to it. *)
Theorem mode_round_trip_preserves_markdown (st : Core) (M : string) (programmatic : bool) :
  mode st = Markdown ->
  let prog := bind Node Snapshot (setMarkdown' M programmatic) (fun _ =>
              bind Node Snapshot (changeMode' Wysiwyg) (fun _ =>
              bind Node Snapshot (changeMode' Markdown) (fun _ => getMarkdown'))) in
  let '(st', r) := prog st in
  r = inr M /\ canonicalMd st' = M /\ mdText st' = M /\ mode st' = Markdown.
Proof.
  intros Hm. cbv zeta.
  unfold setMarkdown, changeMode, getMarkdown, mdSetMarkdown, onMdChange, pushSnapshot,
    runProgrammatic, wwSetModel, clearPendingWwEdits, setWwBaseline, bind, get, modify, ret.
  simpl.
  destruct (suppressSnapshot st); simpl; rewrite Hm; simpl;
  destruct (wwDoc st), (toWysiwygModel M); simpl; rewrite ?Hm; simpl;
  rewrite ?andb_false_r; simpl; repeat split.
Qed.

Lemma at_in_range (doc : list Node) (i : Z) :
  0 <= i < Z.of_nat (length doc) -> exists x, JsArray.at_ doc i = Some x.
Proof.
  intros Hi. unfold JsArray.at_. destruct (i <? 0) eqn:E; [lia|].
  destruct (nth_error doc (Z.to_nat i)) eqn:En; [eauto|].
  apply nth_error_None in En. lia.
Qed.

Lemma children_in_range (doc : list Node) (n : nat) :
  forall i, 0 <= i -> i + Z.of_nat n <= Z.of_nat (length doc) ->
  exists xs, children Node doc i n = inr xs.
Proof.
  induction n as [|n IH]; intros i H0 H1; simpl; [eauto|].
  destruct (at_in_range doc i) as [x Hx]; [lia|]. rewrite Hx.
  destruct (IH (i + 1)) as [xs Hxs]; [lia|lia|]. rewrite Hxs. eauto.
Qed.

Lemma serialize_normalized_no_throw (doc : list Node) (r : BlockRange) :
  startIndex r <= endIndex r ->
  exists t, serializeWwBlockRange Node toMarkdownText doc r = inr t.
Proof.
  intros Hr. unfold serializeWwBlockRange.
  destruct (Z.of_nat (length doc) =? 0); [eauto|].
  destruct ((startIndex r <? 0) || (endIndex r >=? Z.of_nat (length doc))) eqn:E; [eauto|].
  apply orb_false_iff in E as [E1 E2]. apply Z.ltb_ge in E1.
  assert (E2' : endIndex r < Z.of_nat (length doc)) by (rewrite Z.geb_leb in E2; apply Z.leb_gt in E2; lia).
  destruct (children_in_range doc (Z.to_nat (Z.max (endIndex r) (startIndex r) - startIndex r + 1))
              (startIndex r)) as [xs Hxs]; [lia|lia|].
  rewrite Hxs. destruct xs; eauto.
Qed.

Lemma serialize_invalid_null (doc : list Node) (r : BlockRange) :
  doc <> [] -> startIndex r < 0 \/ Z.of_nat (length doc) <= endIndex r ->
  serializeWwBlockRange Node toMarkdownText doc r = inr None.
Proof.
  intros Hd Hr. unfold serializeWwBlockRange.
  destruct (Z.of_nat (length doc) =? 0) eqn:E.
  - destruct doc; [congruence|]. simpl in E. lia.
  - destruct Hr as [Hr|Hr].
    + replace (startIndex r <? 0) with true by lia. reflexivity.
    + replace (endIndex r >=? Z.of_nat (length doc)) with true by lia.
      now rewrite orb_true_r.
Qed.

Lemma resolveRanges_normalized (blocks : list LineRange) (doc : list Node)
  (rs : list WwBlockRange) :
  Forall (fun r => startIndex (newRange r) <= endIndex (newRange r)) rs ->
  exists res, resolveRanges Node toMarkdownText blocks doc rs = inr res
  /\ (Exists (fun r => getMdBlockByIndex blocks (startIndex (oldRange r)) = None
                    \/ getMdBlockByIndex blocks (endIndex (oldRange r)) = None
                    \/ (doc <> [] /\ (startIndex (newRange r) < 0
                                      \/ Z.of_nat (length doc) <= endIndex (newRange r)))) rs ->
      shouldSerializeAll res = true).
Proof.
  induction 1 as [|r rs Hr Hrs IH]; simpl.
  - exists []. split; [reflexivity|]. intros H. inversion H.
  - destruct (serialize_normalized_no_throw doc (newRange r) Hr) as [t Ht]. rewrite Ht.
    destruct IH as [res [Hres Hall]]. rewrite Hres.
    eexists. split; [reflexivity|]. intros Hex. unfold shouldSerializeAll. simpl.
    inversion Hex as [? ? Hu | ? ? Hu]; subst.
    + apply orb_true_intro. left. unfold getBlockLineRangeForIndexRange. simpl.
      destruct Hu as [Hu|[Hu|[Hd Hn]]].
      * rewrite Hu. reflexivity.
      * rewrite Hu. destruct (getMdBlockByIndex blocks (startIndex (oldRange r))); reflexivity.
      * rewrite (serialize_invalid_null doc (newRange r) Hd Hn) in Ht. inversion Ht; subst.
        apply orb_true_r.
    + apply orb_true_intro. right. apply Hall. assumption.
Qed.

(** C4 (amended): when the structured tree differs from the baseline (or
    there is none), every pending range is normalized, and some pending
    range is unresolvable (an old block index locating no top-level block of
    the canonical markdown, or, for a non-empty tree, a new start index below
    [0] or end index at or beyond the child count), [flushSerialize]
    abandons the patches, clears the pending set and returns the full
    serialization of the tree, raising nothing. *)
Theorem flush_falls_back_on_unresolvable_range (st : Core) :
  match wwBaselineDoc st with Some b => docEq (wwDoc st) b = false | None => True end ->
  Forall (fun r => startIndex (newRange r) <= endIndex (newRange r)) (pendingWwRanges st) ->
  Exists (fun r =>
            let blocks := mdBlockLines (canonicalMd st) in
            getMdBlockByIndex blocks (startIndex (oldRange r)) = None
            \/ getMdBlockByIndex blocks (endIndex (oldRange r)) = None
            \/ (wwDoc st <> [] /\ (startIndex (newRange r) < 0
                                   \/ Z.of_nat (length (wwDoc st)) <= endIndex (newRange r))))
    (pendingWwRanges st) ->
  flushSerialize' st = (setPending Node Snapshot [] st, inr (toMarkdownText (wwDoc st))).
Proof.
  intros Hb Hn Hex.
  assert (Hfp : flushPatches Node toMarkdownText mdBlockLines Snapshot st
                = (setPending Node Snapshot [] st, inr (toMarkdownText (wwDoc st)))).
  { unfold flushPatches, bind, get, modify, ret.
    pose proof (sortBy_perm_any oldStartKey (pendingWwRanges st)) as Hp.
    destruct (resolveRanges_normalized (mdBlockLines (canonicalMd st)) (wwDoc st)
                (JsArray.sortBy oldStartKey (pendingWwRanges st))) as [res [Hres Hall]].
    - apply Forall_forall. intros x Hx. rewrite Forall_forall in Hn.
      apply Hn. apply Permutation_in with (l := JsArray.sortBy oldStartKey (pendingWwRanges st));
        [symmetry; exact Hp | exact Hx].
    - rewrite Hres. rewrite Hall; [reflexivity|].
      apply Exists_exists in Hex as [x [Hx Hu]]. apply Exists_exists. exists x.
      split; [apply Permutation_in with (l := pendingWwRanges st); assumption | exact Hu]. }
  unfold flushSerialize, bind, get.
  destruct (pendingWwRanges st) eqn:Hp; [inversion Hex|].
  destruct (wwBaselineDoc st) as [b|]; [rewrite Hb|]; exact Hfp.
Qed.

End Facts.

(** Counterexample for C4: the pending range at block index 5 locates no
    block of the two-paragraph markdown, yet the tree equals its baseline,
    so [flushSerialize] returns the canonical markdown (three newlines
    between the paragraphs) and not the tree's full serialization (two). *)
Lemma flush_unresolvable_but_baseline_equal :
  let C := ("a" ++ Js.NL ++ Js.NL ++ Js.NL ++ "b")%string in
  let st := Paragraphs.mkCore Wysiwyg C C [["a"%string]; ["b"%string]] true
              [{| oldRange := {| startIndex := 5; endIndex := 5 |};
                  newRange := {| startIndex := 5; endIndex := 5 |} |}]
              (Some [["a"%string]; ["b"%string]]) SnapshotHistory.empty in
  getMdBlockByIndex (Paragraphs.mdBlockLines C) 5 = None
  /\ snd (Paragraphs.flushSerialize st) = inr C
  /\ Paragraphs.toMarkdownText (wwDoc st) = ("a" ++ Js.NL ++ Js.NL ++ "b")%string
  /\ C <> Paragraphs.toMarkdownText (wwDoc st).
Proof.
  cbv zeta. split; [reflexivity|]. split; [reflexivity|]. split; [reflexivity|].
  vm_compute. discriminate.
Qed.

(** Witness for C4: no baseline, and an old block index beyond the single
    paragraph of the canonical markdown. *)
Lemma flush_falls_back_on_unresolvable_range_witness :
  let st := Paragraphs.mkCore Wysiwyg "a" "a" [["b"%string]] true
              [{| oldRange := {| startIndex := 5; endIndex := 5 |};
                  newRange := {| startIndex := 0; endIndex := 0 |} |}]
              None SnapshotHistory.empty in
  (match wwBaselineDoc st with
   | Some b => Paragraphs.docEq (wwDoc st) b = false | None => True end
   /\ Forall (fun r => startIndex (newRange r) <= endIndex (newRange r)) (pendingWwRanges st)
   /\ Exists (fun r =>
            let blocks := Paragraphs.mdBlockLines (canonicalMd st) in
            getMdBlockByIndex blocks (startIndex (oldRange r)) = None
            \/ getMdBlockByIndex blocks (endIndex (oldRange r)) = None
            \/ (wwDoc st <> [] /\ (startIndex (newRange r) < 0
                                   \/ Z.of_nat (length (wwDoc st)) <= endIndex (newRange r))))
       (pendingWwRanges st))
  /\ Paragraphs.flushSerialize st
     = (setPending Paragraphs.Node Paragraphs.Snapshot [] st,
        inr (Paragraphs.toMarkdownText (wwDoc st))).
Proof.
  cbv zeta. split.
  - split; [exact I|]. split.
    + repeat constructor. simpl. lia.
    + apply Exists_cons_hd. left. reflexivity.
  - apply flush_falls_back_on_unresolvable_range.
    + exact I.
    + repeat constructor. simpl. lia.
    + apply Exists_cons_hd. left. reflexivity.
Defined.

(** Witness for C5: a tree equal to its baseline with a pending range. *)
Lemma flush_noop_on_baseline_equal_tree_witness :
  let st := Paragraphs.mkCore Wysiwyg "a" "a" [["a"%string]] true
              [{| oldRange := {| startIndex := 0; endIndex := 0 |};
                  newRange := {| startIndex := 0; endIndex := 0 |} |}]
              (Some [["a"%string]]) SnapshotHistory.empty in
  (wwBaselineDoc st = Some [["a"%string]] /\ Paragraphs.docEq (wwDoc st) [["a"%string]] = true)
  /\ (let '(st', r) := Paragraphs.flushSerializeAndMaybePush st in
      r = inr (canonicalMd st)
      /\ canonicalMd st' = canonicalMd st
      /\ snapshotHistory st' = snapshotHistory st
      /\ pendingWwRanges st' = []
      /\ wwDirty st' = false).
Proof.
  cbv zeta. split.
  - split; reflexivity.
  - apply (flush_noop_on_baseline_equal_tree Paragraphs.Node Paragraphs.docEq
             Paragraphs.toMarkdownText Paragraphs.mdBlockLines Paragraphs.Snapshot
             Paragraphs.createSnapshot _ [["a"%string]]); reflexivity.
Defined.

(** Witness for C6: a text-mode editor and a markdown whose structured
    round trip would not reproduce it (three blank lines, an indented line). *)
Lemma mode_round_trip_preserves_markdown_witness :
  let st := Paragraphs.mkCore Markdown "" "" [] false [] None SnapshotHistory.empty in
  let M := ("x" ++ Js.NL ++ Js.NL ++ Js.NL ++ " y")%string in
  mode st = Markdown
  /\ (let prog :=
        bind Paragraphs.Node Paragraphs.Snapshot
          (setMarkdown Paragraphs.Node Paragraphs.toWysiwygModel Paragraphs.diffInfo
             Paragraphs.Snapshot Paragraphs.createSnapshot M false) (fun _ =>
        bind Paragraphs.Node Paragraphs.Snapshot
          (changeMode Paragraphs.Node Paragraphs.docEq Paragraphs.toMarkdownText
             Paragraphs.toWysiwygModel Paragraphs.mdBlockLines Paragraphs.diffInfo
             Paragraphs.Snapshot Paragraphs.createSnapshot Wysiwyg) (fun _ =>
        bind Paragraphs.Node Paragraphs.Snapshot
          (changeMode Paragraphs.Node Paragraphs.docEq Paragraphs.toMarkdownText
             Paragraphs.toWysiwygModel Paragraphs.mdBlockLines Paragraphs.diffInfo
             Paragraphs.Snapshot Paragraphs.createSnapshot Markdown) (fun _ =>
          getMarkdown Paragraphs.Node Paragraphs.docEq Paragraphs.toMarkdownText
            Paragraphs.mdBlockLines Paragraphs.Snapshot Paragraphs.createSnapshot))) in
      let '(st', r) := prog st in
      r = inr M /\ canonicalMd st' = M /\ mdText st' = M /\ mode st' = Markdown).
Proof.
  cbv zeta. split.
  - reflexivity.
  - apply mode_round_trip_preserves_markdown. reflexivity.
Defined.

End CoordinatorFacts.

Module ParagraphFacts.
Import EditorCore Coordinator Paragraphs.

Lemma str_app_assoc (a b c : string) : (a ++ b ++ c = (a ++ b) ++ c)%string.
Proof. induction a as [|x a IH]; simpl; [reflexivity|]. now rewrite IH. Qed.

Lemma split_app_nl (x s : string) :
  hasNL x = false -> Js.split (x ++ Js.NL ++ s) = x :: Js.split s.
Proof.
  induction x as [|c x IH]; intros H; simpl; [reflexivity|].
  unfold hasNL in H. simpl in H. apply orb_false_iff in H as [Hc Hx].
  rewrite Hc. simpl in IH. rewrite IH by exact Hx. reflexivity.
Qed.

Lemma split_no_nl (x : string) : hasNL x = false -> Js.split x = [x].
Proof.
  induction x as [|c x IH]; intros H; simpl; [reflexivity|].
  unfold hasNL in H. simpl in H. apply orb_false_iff in H as [Hc Hx].
  rewrite Hc, IH by exact Hx. reflexivity.
Qed.

Lemma join_app (l1 l2 : list string) :
  l1 <> [] -> l2 <> [] ->
  Js.join Js.NL (l1 ++ l2) = (Js.join Js.NL l1 ++ Js.NL ++ Js.join Js.NL l2)%string.
Proof.
  unfold Js.join. intros H1 H2.
  induction l1 as [|x [|y l1] IH]; [congruence| |].
  - simpl. destruct l2; [congruence|]. reflexivity.
  - cbn [List.app String.concat] in IH |- *. rewrite IH by discriminate.
    rewrite !str_app_assoc. reflexivity.
Qed.

Lemma split_join (ls : list string) :
  ls <> [] -> Forall (fun l => hasNL l = false) ls -> Js.split (Js.join Js.NL ls) = ls.
Proof.
  induction ls as [|x [|y ls] IH]; intros Hne Hf; [congruence| |].
  - inversion Hf; subst. apply split_no_nl. assumption.
  - inversion Hf; subst.
    change (Js.join Js.NL (x :: y :: ls)) with (x ++ Js.NL ++ Js.join Js.NL (y :: ls))%string.
    rewrite split_app_nl by assumption. rewrite IH by (discriminate || assumption).
    reflexivity.
Qed.

Lemma validDoc_Forall (d : list Node) : validDoc d = true -> Forall okBlock d.
Proof.
  unfold validDoc. intros H. apply Forall_forall. intros b Hb.
  rewrite forallb_forall in H. specialize (H b Hb).
  destruct b as [|l b]; [discriminate|]. split; [discriminate|].
  apply Forall_forall. intros x Hx. rewrite forallb_forall in H. specialize (H x Hx).
  unfold validLine in H. apply andb_true_iff in H as [H1 H2].
  apply negb_true_iff in H1, H2. split; assumption.
Qed.

Lemma docLines_not_nil (d : list Node) : d <> [] -> Forall okBlock d -> docLines d <> [].
Proof.
  destruct d as [|b [|b' d]]; intros Hd Hf; [congruence| |];
    inversion Hf as [|? ? [Hb _] _]; subst; simpl.
  - exact Hb.
  - destruct b; [congruence|]. discriminate.
Qed.

Lemma docLines_no_nl (d : list Node) :
  Forall okBlock d -> Forall (fun l => hasNL l = false) (docLines d).
Proof.
  induction d as [|b [|b' d] IH]; intros Hf; simpl; [constructor| |];
    inversion Hf as [|? ? [_ Hb] Hr]; subst.
  - eapply Forall_impl; [|exact Hb]. intros l [_ H]. exact H.
  - apply Forall_app. split.
    + eapply Forall_impl; [|exact Hb]. intros l [_ H]. exact H.
    + constructor; [reflexivity|]. apply IH. exact Hr.
Qed.

Lemma toMarkdownText_docLines (d : list Node) :
  Forall okBlock d -> toMarkdownText d = Js.join Js.NL (docLines d).
Proof.
  unfold toMarkdownText.
  induction d as [|b [|b' d] IH]; intros Hf; [reflexivity|reflexivity|].
  inversion Hf as [|? ? [Hb _] Hr]; subst.
  inversion Hr as [|? ? [Hb' _] _]; subst.
  change (map (Js.join Js.NL) (b :: b' :: d))
    with (Js.join Js.NL b :: map (Js.join Js.NL) (b' :: d)).
  change (docLines (b :: b' :: d)) with (b ++ EmptyString :: docLines (b' :: d)).
  unfold Js.join at 1. cbn [String.concat].
  fold (Js.join (Js.NL ++ Js.NL) (map (Js.join Js.NL) (b' :: d))).
  rewrite IH by exact Hr.
  rewrite join_app; [|exact Hb|discriminate].
  assert (Hne : docLines (b' :: d) <> []) by (apply docLines_not_nil; [discriminate|exact Hr]).
  destruct (docLines (b' :: d)) as [|x xs] eqn:E; [congruence|].
  reflexivity.
Qed.

Lemma split_toMarkdownText (d : list Node) :
  d <> [] -> Forall okBlock d -> Js.split (toMarkdownText d) = docLines d.
Proof.
  intros Hd Hf. rewrite toMarkdownText_docLines by exact Hf.
  apply split_join; [apply docLines_not_nil|apply docLines_no_nl]; assumption.
Qed.

Lemma blocksOf_run (l r : list string) (n s : Z) :
  Forall (fun x => isBlankLine x = false) l ->
  blocksOf (l ++ r) n (Some s) = blocksOf r (n + Z.of_nat (length l)) (Some s).
Proof.
  revert n. induction l as [|x l IH]; intros n Hf; simpl.
  - now rewrite Z.add_0_r.
  - inversion Hf; subst. rewrite H1. rewrite IH by assumption. f_equal. lia.
Qed.

Lemma blocksOf_docLines (d : list Node) (n : Z) :
  d <> [] -> Forall okBlock d -> blocksOf (docLines d) n None = positions d n.
Proof.
  revert n. induction d as [|b [|b' d] IH]; intros n Hd Hf; [congruence| |];
    inversion Hf as [|? ? [Hb Hl] Hr]; subst;
    (destruct b as [|x b]; [congruence|]);
    inversion Hl as [|? ? [Hx _] Hl']; subst;
    assert (Hbl : Forall (fun y => isBlankLine y = false) b)
      by (eapply Forall_impl; [|exact Hl']; intros y [H _]; exact H).
  - cbn [docLines positions blocksOf]. rewrite Hx.
    rewrite <- (app_nil_r b), blocksOf_run by exact Hbl. rewrite app_nil_r.
    cbn [blocksOf positions length]. rewrite Nat2Z.inj_succ. do 2 f_equal. lia.
  - change (docLines ((x :: b) :: b' :: d)) with ((x :: b) ++ EmptyString :: docLines (b' :: d)).
    cbn [app blocksOf]. rewrite Hx. rewrite blocksOf_run by exact Hbl.
    cbn [blocksOf isBlankLine list_ascii_of_string forallb].
    rewrite IH by (discriminate || exact Hr).
    cbn [positions length]. rewrite Nat2Z.inj_succ.
    replace (n + Z.succ (Z.of_nat (length b))) with (n + 1 + Z.of_nat (length b)) by lia.
    f_equal.
Qed.

Lemma mdBlockLines_toMarkdownText (d : list Node) :
  d <> [] -> Forall okBlock d -> mdBlockLines (toMarkdownText d) = positions d 1.
Proof.
  intros Hd Hf. unfold mdBlockLines. rewrite split_toMarkdownText by assumption.
  apply blocksOf_docLines; assumption.
Qed.

Lemma length_positions (d : list Node) (n : Z) : length (positions d n) = length d.
Proof. revert n. induction d as [|b d IH]; intros n; simpl; [reflexivity|]. now rewrite IH. Qed.

Lemma positions_app (xs ys : list Node) (n : Z) :
  positions (xs ++ ys) n = positions xs n ++ positions ys (n + Z.of_nat (sz xs)).
Proof.
  revert n. induction xs as [|b xs IH]; intros n; simpl.
  - now rewrite Z.add_0_r.
  - rewrite IH. do 3 f_equal. lia.
Qed.

Lemma positions_last (d : list Node) (n : Z) :
  d <> [] ->
  exists s, nth_error (positions d n) (length d - 1) = Some {| startLine := s;
                                                            endLine := n + Z.of_nat (sz d) - 2 |}.
Proof.
  revert n. induction d as [|b [|b' d] IH]; intros n Hd; [congruence| |].
  - exists n. simpl. do 2 f_equal. lia.
  - destruct (IH (n + Z.of_nat (length b) + 1)) as [s Hs]; [discriminate|].
    exists s. replace (length (b :: b' :: d) - 1)%nat with (S (length (b' :: d) - 1))
      by (simpl; lia).
    change (positions (b :: b' :: d) n)
      with ({| startLine := n; endLine := n + Z.of_nat (length b) - 1 |}
            :: positions (b' :: d) (n + Z.of_nat (length b) + 1)).
    cbn [nth_error]. rewrite Hs. do 2 f_equal.
    change (sz (b :: b' :: d)) with (length b + 1 + sz (b' :: d))%nat. lia.
Qed.

Lemma sz_ge_2 (d : list Node) : d <> [] -> Forall okBlock d -> (2 <= sz d)%nat.
Proof.
  destruct d as [|b d]; intros Hd Hf; [congruence|].
  inversion Hf as [|? ? [Hb _] _]; subst. destruct b; [congruence|]. simpl. lia.
Qed.

(** The old block indices of an edited run locate its first and last
    block among the blocks of the serialized document. *)
Lemma old_range_lines (pre mid post : list Node) :
  mid <> [] -> Forall okBlock mid ->
  getBlockLineRangeForIndexRange
    {| startIndex := Z.of_nat (length pre); endIndex := Z.of_nat (length pre + length mid) - 1 |}
    (positions (pre ++ mid ++ post) 1)
  = Some {| startLine := 1 + Z.of_nat (sz pre);
            endLine := Z.of_nat (sz pre) + Z.of_nat (sz mid) - 1 |}.
Proof.
  intros Hm Hf. pose proof (sz_ge_2 mid Hm Hf) as H2.
  unfold getBlockLineRangeForIndexRange, getMdBlockByIndex. cbn [startIndex endIndex].
  rewrite !positions_app. rewrite Nat2Z.id.
  replace (Z.to_nat (Z.of_nat (length pre + length mid) - 1))
    with (length pre + (length mid - 1))%nat by (destruct mid; [congruence|simpl; lia]).
  rewrite (@nth_error_app2 _ (positions pre 1) _ (length pre))
    by (rewrite length_positions; lia).
  rewrite (@nth_error_app2 _ (positions pre 1) _ (length pre + (length mid - 1)))
    by (rewrite length_positions; lia).
  rewrite length_positions, Nat.sub_diag.
  replace (length pre + (length mid - 1) - length pre)%nat with (length mid - 1)%nat by lia.
  rewrite (@nth_error_app1 _ (positions mid _) _ (length mid - 1))
    by (rewrite length_positions; destruct mid; [congruence|simpl; lia]).
  destruct (positions_last mid (1 + Z.of_nat (sz pre)) Hm) as [s Hs]. rewrite Hs.
  destruct mid as [|b mid]; [congruence|]. cbn [positions nth_error app startLine endLine].
  do 2 f_equal. lia.
Qed.

Lemma docLines_app (xs ys : list Node) :
  xs <> [] -> ys <> [] -> docLines (xs ++ ys) = docLines xs ++ EmptyString :: docLines ys.
Proof.
  intros Hx Hy. induction xs as [|b [|b' xs] IH]; [congruence| |].
  - destruct ys; [congruence|]. reflexivity.
  - change ((b :: b' :: xs) ++ ys) with (b :: (b' :: xs) ++ ys).
    change (docLines (b :: (b' :: xs) ++ ys)) with (b ++ EmptyString :: docLines ((b' :: xs) ++ ys)).
    rewrite IH by discriminate. change (docLines (b :: b' :: xs))
      with (b ++ EmptyString :: docLines (b' :: xs)).
    now rewrite <- app_assoc.
Qed.

Lemma docLines_split3 (pre mid post : list Node) :
  mid <> [] -> docLines (pre ++ mid ++ post) = lead pre ++ docLines mid ++ trail post.
Proof.
  intros Hm.
  assert (Hmp : docLines (mid ++ post) = docLines mid ++ trail post).
  { destruct post as [|c post]; simpl; [now rewrite !app_nil_r|].
    apply docLines_app; [exact Hm|discriminate]. }
  destruct pre as [|a pre]; [exact Hmp|].
  rewrite docLines_app; [|discriminate|destruct mid; [congruence|discriminate]].
  rewrite Hmp. unfold lead. now rewrite <- app_assoc.
Qed.

Lemma length_docLines (d : list Node) : d <> [] -> S (length (docLines d)) = sz d.
Proof.
  induction d as [|b [|b' d] IH]; intros Hd; [congruence| |].
  - simpl. lia.
  - change (docLines (b :: b' :: d)) with (b ++ EmptyString :: docLines (b' :: d)).
    rewrite length_app. cbn [length]. change (sz (b :: b' :: d)) with (length b + 1 + sz (b' :: d))%nat.
    rewrite <- IH by discriminate. lia.
Qed.

Lemma length_lead (pre : list Node) : length (lead pre) = sz pre.
Proof.
  destruct pre as [|b pre]; [reflexivity|]. unfold lead. rewrite length_app.
  rewrite <- (length_docLines (b :: pre)) by discriminate. simpl. lia.
Qed.

Lemma children_prefix {N : Type} (n : nat) :
  forall (A B : list N), (n <= length B)%nat ->
  children N (A ++ B) (Z.of_nat (length A)) n = inr (firstn n B).
Proof.
  induction n as [|n IH]; intros A B Hn; [reflexivity|].
  destruct B as [|b B]; [simpl in Hn; lia|].
  cbn [children]. unfold JsArray.at_.
  replace (Z.of_nat (length A) <? 0) with false by (symmetry; apply Z.ltb_ge; lia).
  rewrite Nat2Z.id.
  rewrite nth_error_app2, Nat.sub_diag by lia. cbn [nth_error].
  replace (A ++ b :: B) with ((A ++ [b]) ++ B) by now rewrite <- app_assoc.
  replace (Z.of_nat (length A) + 1) with (Z.of_nat (length (A ++ [b])))
    by (rewrite length_app; simpl; lia).
  rewrite IH by (simpl in Hn; lia). reflexivity.
Qed.

(** The new block indices of an edited run serialize exactly its blocks. *)
Lemma serialize_block_run (pre mid post : list Node) :
  mid <> [] ->
  serializeWwBlockRange Node toMarkdownText (pre ++ mid ++ post)
    {| startIndex := Z.of_nat (length pre); endIndex := Z.of_nat (length pre + length mid) - 1 |}
  = inr (Some (toMarkdownText mid)).
Proof.
  intros Hm. destruct mid as [|b mid']; [congruence|]. set (mid := b :: mid').
  unfold serializeWwBlockRange. cbn [startIndex endIndex].
  rewrite !length_app.
  replace (Z.of_nat (length pre + (length mid + length post)) =? 0) with false
    by (symmetry; apply Z.eqb_neq; unfold mid; simpl; lia).
  replace ((Z.of_nat (length pre) <? 0)
           || (Z.of_nat (length pre + length mid) - 1 >=? Z.of_nat (length pre + (length mid + length post))))
    with false
    by (symmetry; apply orb_false_iff; split;
        [apply Z.ltb_ge | rewrite Z.geb_leb; apply Z.leb_gt]; unfold mid; simpl; lia).
  replace (Z.to_nat (Z.max (Z.of_nat (length pre + length mid) - 1) (Z.of_nat (length pre))
                     - Z.of_nat (length pre) + 1))
    with (length mid) by (unfold mid; simpl; lia).
  rewrite children_prefix by (rewrite length_app; lia).
  rewrite firstn_app, Nat.sub_diag, firstn_O, app_nil_r, firstn_all. reflexivity.
Qed.

Lemma splitLines_toMarkdownText (d : list Node) :
  d <> [] -> Forall okBlock d -> splitLines (toMarkdownText d) = docLines d.
Proof.
  intros Hd Hf. unfold splitLines.
  destruct (String.eqb (toMarkdownText d) EmptyString) eqn:E;
    [|apply split_toMarkdownText; assumption].
  exfalso. apply String.eqb_eq in E.
  pose proof (split_toMarkdownText d Hd Hf) as H. rewrite E in H.
  destruct d as [|b d]; [congruence|]. inversion Hf as [|? ? [Hb Hl] _]; subst.
  destruct b as [|x b]; [congruence|]. inversion Hl as [|? ? [Hx _] _]; subst.
  assert (Hhd : hd_error (Js.split EmptyString) = Some x) by (rewrite H; destruct d; reflexivity).
  simpl in Hhd. inversion Hhd; subst. discriminate.
Qed.

Lemma listEqb_sound {A} (eqb : A -> A -> bool) :
  (forall x y, eqb x y = true -> x = y) -> forall a b, listEqb eqb a b = true -> a = b.
Proof.
  intros Heq a. induction a as [|x a IH]; intros [|y b] H; simpl in H; try discriminate;
    [reflexivity|].
  apply andb_true_iff in H as [H1 H2]. f_equal; [apply Heq | apply IH]; assumption.
Qed.

Lemma docEq_sound (a b : list Node) : docEq a b = true -> a = b.
Proof.
  apply listEqb_sound. apply listEqb_sound. apply String.eqb_eq.
Qed.

Lemma sz_app (xs ys : list Node) : sz (xs ++ ys) = (sz xs + sz ys)%nat.
Proof. induction xs as [|b xs IH]; simpl; [reflexivity|]. rewrite IH. lia. Qed.

Lemma firstn_exact {A} (a r : list A) : firstn (length a) (a ++ r) = a.
Proof. induction a as [|x a IH]; simpl; [reflexivity|]. now rewrite IH. Qed.

Lemma skipn_exact {A} (a r : list A) : skipn (length a) (a ++ r) = r.
Proof. induction a as [|x a IH]; simpl; [reflexivity|]. exact IH. Qed.

(** Replacing the lines of an edited run in the serialized document by the
    serialization of the new run gives the serialized new document. *)
Lemma patch_block_run (pre oldMid newMid post : list Node) :
  oldMid <> [] -> newMid <> [] ->
  Forall okBlock (pre ++ oldMid ++ post) -> Forall okBlock (pre ++ newMid ++ post) ->
  applyMdPatches (toMarkdownText (pre ++ oldMid ++ post))
    [{| range := {| startLine := 1 + Z.of_nat (sz pre);
                    endLine := Z.of_nat (sz pre) + Z.of_nat (sz oldMid) - 1 |};
        text := toMarkdownText newMid |}]
  = toMarkdownText (pre ++ newMid ++ post).
Proof.
  intros Ho Hn Hfo Hfn.
  apply Forall_app in Hfo as [Hpre [Hold Hpost]%Forall_app].
  apply Forall_app in Hfn as [_ [Hnew _]%Forall_app].
  pose proof (sz_ge_2 oldMid Ho Hold) as H2.
  assert (Hbase : pre ++ oldMid ++ post <> []) by (destruct pre, oldMid; simpl; congruence).
  unfold applyMdPatches.
  rewrite split_toMarkdownText by (exact Hbase || (apply Forall_app; split;
    [exact Hpre | apply Forall_app; split; assumption])).
  cbn [JsArray.sortBy fold_left JsArray.insertBy].
  set (L := docLines (pre ++ oldMid ++ post)).
  assert (HL : S (length L) = (sz pre + sz oldMid + sz post)%nat)
    by (unfold L; rewrite length_docLines by exact Hbase; rewrite !sz_app; lia).
  set (p := {| range := {| startLine := 1 + Z.of_nat (sz pre);
                            endLine := Z.of_nat (sz pre) + Z.of_nat (sz oldMid) - 1 |};
                text := toMarkdownText newMid |}).
  assert (Hwf : PatchSpec.disjointInRange 1 (1 - 1 + Z.of_nat (length L)) [p] = true).
  { unfold p. cbn [PatchSpec.disjointInRange range startLine endLine].
    rewrite !andb_true_r. repeat rewrite andb_true_iff. rewrite !Z.leb_le. lia. }
  assert (Hrep : PatchSpec.replaceOriginal splitLines L 1 [p] = docLines (pre ++ newMid ++ post)).
  { unfold p. cbn [PatchSpec.replaceOriginal range text startLine endLine].
    rewrite splitLines_toMarkdownText by assumption.
    unfold L. rewrite docLines_split3 by exact Ho.
    replace (Z.to_nat (1 + Z.of_nat (sz pre) - 1)) with (length (lead pre))
      by (rewrite length_lead; lia).
    rewrite firstn_exact.
    replace (Z.to_nat (Z.of_nat (sz pre) + Z.of_nat (sz oldMid) - 1 - 1 + 1))
      with (length (lead pre ++ docLines oldMid))
      by (rewrite length_app, length_lead, <- (length_docLines oldMid Ho); lia).
    rewrite (app_assoc (lead pre) (docLines oldMid) (trail post)), skipn_exact.
    rewrite <- docLines_split3 by exact Hn. reflexivity. }
  pose proof (PatchFacts.fold_patchStep [p] [] L 1 0 eq_refl Hwf) as Hfold.
  cbn [app fold_left] in Hfold. rewrite Hrep in Hfold.
  destruct (patchStep (L, 0) p) as [lines off]. cbn [fst] in Hfold. subst lines.
  assert (Hne : docLines (pre ++ newMid ++ post) <> [])
    by (apply docLines_not_nil; [destruct pre, newMid; simpl; congruence
                                | apply Forall_app; split; [exact Hpre|];
                                  apply Forall_app; split; assumption]).
  destruct (docLines (pre ++ newMid ++ post)) as [|l0 ls] eqn:E; [congruence|].
  cbv beta iota. rewrite <- E. symmetry. apply toMarkdownText_docLines.
  apply Forall_app. split; [exact Hpre|]. apply Forall_app. split; assumption.
Qed.

(** On the paragraph instance of the collaborators, the incremental flush
    agrees with full serialization for a single contiguous structured edit
    made from a synchronized state, for every document of paragraphs: the
    canonical markdown is the full serialization of the last synchronized
    tree [pre ++ oldMid ++ post] (which is also the stored baseline, if any),
    the current tree is [pre ++ newMid ++ post], both are documents the
    grammar reads back block for block, and the pending set holds the one
    range of the edited run. *)
Theorem flush_block_run_edit_matches_full_serialization (st : Paragraphs.Core)
  (pre oldMid newMid post : list Node) :
  validDoc (pre ++ oldMid ++ post) = true ->
  validDoc (pre ++ newMid ++ post) = true ->
  oldMid <> [] -> newMid <> [] ->
  canonicalMd st = toMarkdownText (pre ++ oldMid ++ post) ->
  wwDoc st = pre ++ newMid ++ post ->
  wwBaselineDoc st = None \/ wwBaselineDoc st = Some (pre ++ oldMid ++ post) ->
  pendingWwRanges st =
    [{| oldRange := {| startIndex := Z.of_nat (length pre);
                       endIndex := Z.of_nat (length pre + length oldMid) - 1 |};
        newRange := {| startIndex := Z.of_nat (length pre);
                       endIndex := Z.of_nat (length pre + length newMid) - 1 |} |}] ->
  snd (Paragraphs.flushSerialize st) = inr (toMarkdownText (wwDoc st)).
Proof.
  intros Hvo Hvn Ho Hn Hc Hd Hb Hp.
  apply validDoc_Forall in Hvo, Hvn.
  pose proof Hvo as Hvo'. apply Forall_app in Hvo' as [_ [Hold _]%Forall_app].
  assert (Hbase : pre ++ oldMid ++ post <> []) by (destruct pre, oldMid; simpl; congruence).
  assert (Hfp : snd (flushPatches Node toMarkdownText mdBlockLines Snapshot st)
                = inr (toMarkdownText (wwDoc st))).
  { unfold flushPatches, bind, get, modify, ret. rewrite Hp.
    cbn [JsArray.sortBy fold_left JsArray.insertBy].
    rewrite Hc, mdBlockLines_toMarkdownText by assumption. rewrite Hd.
    cbn [resolveRanges oldRange newRange].
    rewrite old_range_lines by assumption. rewrite serialize_block_run by exact Hn.
    cbn [shouldSerializeAll existsb isNone fst snd orb patchesOf flat_map app].
    cbn [snd]. f_equal. apply patch_block_run; assumption. }
  unfold Paragraphs.flushSerialize, Coordinator.flushSerialize, bind, get. cbv beta iota.
  rewrite Hp.
  destruct Hb as [Hb|Hb]; rewrite Hb; [exact Hfp|].
  destruct (docEq (wwDoc st) (pre ++ oldMid ++ post)) eqn:E; [|exact Hfp].
  apply docEq_sound in E. rewrite E, <- Hc. reflexivity.
Qed.

(** Counterexample for C1: the canonical markdown separates its two
    paragraphs by two blank lines; editing the second paragraph in the
    structured view gives a resolvable range, and the patched result keeps
    the two blank lines while the full serialization of the tree has one. *)
Lemma flush_patch_differs_from_full_serialization :
  let C := ("a" ++ Js.NL ++ Js.NL ++ Js.NL ++ "b")%string in
  let r := {| startIndex := 1; endIndex := 1 |} in
  let st := mkCore Wysiwyg C C [["a"%string]; ["c"%string]] true
              [{| oldRange := r; newRange := r |}]
              (Some [["a"%string]; ["b"%string]]) SnapshotHistory.empty in
  getBlockLineRangeForIndexRange r (mdBlockLines C) = Some {| startLine := 4; endLine := 4 |}
  /\ serializeWwBlockRange Node toMarkdownText (wwDoc st) r = inr (Some "c"%string)
  /\ snd (Paragraphs.flushSerialize st) = inr ("a" ++ Js.NL ++ Js.NL ++ Js.NL ++ "c")%string
  /\ toMarkdownText (wwDoc st) = ("a" ++ Js.NL ++ Js.NL ++ "c")%string
  /\ snd (Paragraphs.flushSerialize st) <> inr (toMarkdownText (wwDoc st)).
Proof.
  cbv zeta. split; [reflexivity|]. split; [reflexivity|]. split; [reflexivity|].
  split; [reflexivity|]. vm_compute. congruence.
Qed.

(** Witness: one paragraph before, one replaced by two, one after. *)
Lemma flush_block_run_edit_matches_full_serialization_witness :
  let pre := [["a"%string]] in
  let oldMid := [["b"%string]] in
  let newMid := [["c"%string; "c2"%string]; ["d"%string]] in
  let post := [["e"%string]] in
  let st := mkCore Wysiwyg (toMarkdownText (pre ++ oldMid ++ post))
              (toMarkdownText (pre ++ oldMid ++ post)) (pre ++ newMid ++ post) true
              [{| oldRange := {| startIndex := 1; endIndex := 1 |};
                  newRange := {| startIndex := 1; endIndex := 2 |} |}]
              (Some (pre ++ oldMid ++ post)) SnapshotHistory.empty in
  (validDoc (pre ++ oldMid ++ post) = true
   /\ validDoc (pre ++ newMid ++ post) = true
   /\ oldMid <> [] /\ newMid <> []
   /\ canonicalMd st = toMarkdownText (pre ++ oldMid ++ post)
   /\ wwDoc st = pre ++ newMid ++ post
   /\ (wwBaselineDoc st = None \/ wwBaselineDoc st = Some (pre ++ oldMid ++ post))
   /\ pendingWwRanges st =
        [{| oldRange := {| startIndex := Z.of_nat (length pre);
                           endIndex := Z.of_nat (length pre + length oldMid) - 1 |};
            newRange := {| startIndex := Z.of_nat (length pre);
                           endIndex := Z.of_nat (length pre + length newMid) - 1 |} |}])
  /\ snd (Paragraphs.flushSerialize st) = inr (toMarkdownText (wwDoc st)).
Proof.
  cbv zeta. split.
  - repeat split; try reflexivity; try discriminate. right. reflexivity.
  - apply (flush_block_run_edit_matches_full_serialization _ [["a"%string]] [["b"%string]]
             [["c"%string; "c2"%string]; ["d"%string]] [["e"%string]]);
      try reflexivity; try discriminate. right. reflexivity.
Defined.

End ParagraphFacts.

Module HelperFacts.
Import EditorCore.

(** ** Positions and selections *)

Lemma clamp_line_count (md : string) : 1 <= Z.of_nat (length (Js.split md)).
Proof.
  pose proof (ClampFacts.split_not_nil md).
  destruct (Js.split md); [congruence|simpl; lia].
Qed.

(** [clampMdPos] is idempotent: a clamped position is a valid position of
    [md], which a second clamping keeps as it is. *)
Theorem clampMdPos_idempotent (md : string) (pos : MdPos) :
  clampMdPos md (clampMdPos md pos) = clampMdPos md pos.
Proof.
  destruct pos as [l c]. pose proof (clamp_line_count md) as Hn.
  unfold clampMdPos at 2 3. cbn [fst snd].
  set (n := Z.of_nat (length (Js.split md))) in *.
  set (li := Z.min (Z.max l 1) (Z.max n 1)).
  set (lt := match JsArray.at_ (Js.split md) (li - 1) with Some x => x | None => EmptyString end).
  set (ch := Z.min (Z.max c 1) (Z.max (Js.strlen lt + 1) 1)).
  unfold clampMdPos. cbn [fst snd]. fold n.
  assert (E : Z.min (Z.max li 1) (Z.max n 1) = li) by (unfold li; lia).
  rewrite E. fold lt. f_equal. unfold ch. lia.
Qed.


(** The selection [getSelectionForSnapshot] stores is given back unchanged
    by [restoreSelection] on the same markdown, and it is [collapsed]
    exactly when its anchor and head are the same position. *)
Theorem snapshot_selection_restores (md : string) (sel : MdPos * MdPos) :
  let s := Selection.getSelectionForSnapshot md sel in
  Selection.restoreSelection s md = (Selection.anchor s, Selection.head s)
  /\ (Selection.collapsed s = true <-> Selection.anchor s = Selection.head s).
Proof.
  cbv zeta. unfold Selection.restoreSelection, Selection.getSelectionForSnapshot.
  cbn [Selection.anchor Selection.head Selection.collapsed].
  rewrite !clampMdPos_idempotent. split; [reflexivity|].
  destruct (clampMdPos md (fst sel)) as [a1 a2], (clampMdPos md (snd sel)) as [h1 h2].
  cbn [fst snd]. rewrite andb_true_iff, !Z.eqb_eq. split.
  - intros [-> ->]. reflexivity.
  - intros H. injection H as -> ->. split; reflexivity.
Qed.

(** ** [tailText] *)

Lemma substring_length (s : string) : forall n m,
  (n + m <= String.length s)%nat -> String.length (substring n m s) = m.
Proof.
  induction s as [|c s IH]; intros n m H; simpl in H.
  - destruct n, m; simpl; lia.
  - destruct n as [|n]; simpl.
    + destruct m as [|m]; simpl; [reflexivity|]. f_equal. apply (IH 0%nat m). lia.
    + apply IH. lia.
Qed.

Lemma substring_suffix (s : string) : forall n,
  (n <= String.length s)%nat ->
  s = (substring 0 n s ++ substring n (String.length s - n) s)%string.
Proof.
  induction s as [|c s IH]; intros n H; simpl in H.
  - destruct n; [reflexivity|lia].
  - destruct n as [|n]; simpl.
    + f_equal. pose proof (IH 0%nat ltac:(lia)) as E. rewrite Nat.sub_0_r in E.
      replace (substring 0 0 s) with EmptyString in E by (destruct s; reflexivity). exact E.
    + f_equal. apply IH. lia.
Qed.


Lemma substring_zero (s : string) : forall n, substring n 0 s = EmptyString.
Proof. induction s as [|c s IH]; intros [|n]; simpl; auto. Qed.

(** [tailText(text, limit)] with a limit [>= 0] is a suffix of [text] of
    length [min(text.length, limit)]; a negative limit gives [''] (the
    [slice] start then lies past the end). *)
Theorem tailText_suffix (text : string) (limit : Z) :
  (0 <= limit ->
   exists pre, text = (pre ++ DebugHelpers.tailText text limit)%string
   /\ Js.strlen (DebugHelpers.tailText text limit) = Z.min (Js.strlen text) limit)
  /\ (limit < 0 -> DebugHelpers.tailText text limit = EmptyString).
Proof.
  unfold DebugHelpers.tailText, DebugHelpers.sliceFrom.
  assert (Hlen : 0 <= Js.strlen text) by (unfold Js.strlen; lia).
  split; intros Hl.
  - destruct (Js.strlen text <=? limit) eqn:E.
    + exists EmptyString. split; [reflexivity|]. apply Z.leb_le in E. lia.
    + apply Z.leb_gt in E.
      replace (Js.strlen text - limit <? 0) with false by (symmetry; apply Z.ltb_ge; lia).
      replace (Z.min (Js.strlen text - limit) (Js.strlen text)) with (Js.strlen text - limit)
        by lia.
      replace (Js.strlen text - (Js.strlen text - limit)) with limit by lia.
      assert (Hk : (Z.to_nat (Js.strlen text - limit) <= String.length text)%nat)
        by (unfold Js.strlen in *; lia).
      pose proof (substring_suffix text _ Hk) as Hs.
      replace (String.length text - Z.to_nat (Js.strlen text - limit))%nat
        with (Z.to_nat limit) in Hs by (unfold Js.strlen in *; lia).
      exists (substring 0 (Z.to_nat (Js.strlen text - limit)) text). split; [exact Hs|].
      unfold Js.strlen at 1. rewrite substring_length by (unfold Js.strlen in *; lia).
      lia.
  - replace (Js.strlen text <=? limit) with false by (symmetry; apply Z.leb_gt; lia).
    replace (Js.strlen text - limit <? 0) with false by (symmetry; apply Z.ltb_ge; lia).
    replace (Js.strlen text - Z.min (Js.strlen text - limit) (Js.strlen text)) with 0 by lia.
    apply substring_zero.
Qed.


(** ** [hashMd] *)

Lemma toInt32_mod (x : Z) : DebugHelpers.toInt32 x mod 2 ^ 32 = x mod 2 ^ 32.
Proof.
  unfold DebugHelpers.toInt32. destruct (x mod 2 ^ 32 >=? 2 ^ 31).
  - rewrite Zminus_mod, Z_mod_same_full, Z.sub_0_r, !Zmod_mod. reflexivity.
  - apply Zmod_mod.
Qed.

Lemma hash_fold_mod (l : list ascii) : forall a b, a mod 2 ^ 32 = b mod 2 ^ 32 ->
  fold_left (fun h c => DebugHelpers.toInt32 (h * 31 + DebugHelpers.charCodeAt c)) l a mod 2 ^ 32
  = fold_left (fun h c => h * 31 + DebugHelpers.charCodeAt c) l b mod 2 ^ 32.
Proof.
  induction l as [|c l IH]; intros a b H; simpl; [exact H|].
  apply IH. rewrite toInt32_mod.
  rewrite Z.add_mod, Z.mul_mod, H, <- Z.mul_mod, <- Z.add_mod by lia. reflexivity.
Qed.

(** [hashMd(text)] is [h] followed by the decimal form of
    [(sum of charCode(i) * 31^(n-1-i)) mod 2^32]: the [| 0] truncation at
    every step of the loop loses nothing but the reduction modulo [2^32]
    that the final [>>> 0] performs anyway. *)
Theorem hashMd_polynomial (text : string) :
  DebugHelpers.hashMd text
  = String "h" (DebugHelpers.numberToString
      (fold_left (fun h c => h * 31 + DebugHelpers.charCodeAt c)
         (list_ascii_of_string text) 0 mod 2 ^ 32)).
Proof.
  unfold DebugHelpers.hashMd, DebugHelpers.toUint32, DebugHelpers.hashLoop.
  rewrite (hash_fold_mod _ 0 0) by reflexivity. reflexivity.
Qed.


(** ** [applyMdPatches] *)

Lemma join_split (s : string) : Js.join Js.NL (Js.split s) = s.
Proof.
  unfold Js.join. induction s as [|c s IH]; [reflexivity|]. simpl.
  destruct (Ascii.eqb c Js.nl) eqn:E.
  - apply Ascii.eqb_eq in E. subst c.
    pose proof (ClampFacts.split_not_nil s) as Hne.
    rewrite <- IH at 2. destruct (Js.split s) as [|x xs]; [congruence|]. reflexivity.
  - destruct (Js.split s) as [|x xs] eqn:Es; [exact (False_ind _ (ClampFacts.split_not_nil s Es))|].
    destruct xs; simpl in *; rewrite IH; reflexivity.
Qed.

Lemma split_lines_no_nl (s : string) : Forall (fun l => Paragraphs.hasNL l = false) (Js.split s).
Proof.
  induction s as [|c s IH]; simpl; [repeat constructor|].
  destruct (Ascii.eqb c Js.nl) eqn:E.
  - constructor; [reflexivity|exact IH].
  - destruct (Js.split s) as [|x xs]; [repeat constructor; unfold Paragraphs.hasNL; simpl; now rewrite E|].
    inversion IH as [|? ? Hx Hxs]; subst. constructor; [|exact Hxs].
    unfold Paragraphs.hasNL in *. simpl. rewrite E, Hx. reflexivity.
Qed.

(** With no patch, [applyMdPatches(md, [])] gives [md] back, also for an
    empty [md]: [md.split('\n').join('\n')] is [md]. *)
Theorem applyMdPatches_no_patch (md : string) : applyMdPatches md [] = md.
Proof.
  unfold applyMdPatches. simpl.
  pose proof (ClampFacts.split_not_nil md) as Hne.
  destruct (Js.split md) as [|x xs] eqn:E; [congruence|].
  rewrite <- E. apply join_split.
Qed.

(** A single patch that rewrites lines [a..b] of [md] (1-based, within the
    line count) with their own current text leaves [md] unchanged, provided
    that text is not empty (an empty text removes the lines instead). *)
Lemma in_firstn_any {A} (n : nat) (l : list A) (x : A) : In x (firstn n l) -> In x l.
Proof. intros H. rewrite <- (firstn_skipn n l). apply in_or_app. now left. Qed.

Lemma in_skipn_any {A} (n : nat) (l : list A) (x : A) : In x (skipn n l) -> In x l.
Proof. intros H. rewrite <- (firstn_skipn n l). apply in_or_app. now right. Qed.

Theorem applyMdPatches_same_text_patch (md : string) (a b : Z) :
  1 <= a <= b -> b <= Z.of_nat (length (Js.split md)) ->
  let t := Js.join Js.NL (firstn (Z.to_nat (b - a + 1)) (skipn (Z.to_nat (a - 1)) (Js.split md))) in
  t <> EmptyString ->
  applyMdPatches md [{| range := {| startLine := a; endLine := b |}; text := t |}] = md.
Proof.
  intros Hab Hb. cbv zeta. intros Ht.
  pose proof (ClampFacts.split_not_nil md) as Hne.
  pose proof (split_lines_no_nl md) as Hf.
  set (L := Js.split md) in *.
  set (j := Z.to_nat (a - 1)) in *.
  set (k := Z.to_nat (b - a + 1)) in *.
  set (sub := firstn k (skipn j L)) in *.
  assert (Hsub : Js.split (Js.join Js.NL sub) = sub).
  { apply ParagraphFacts.split_join.
    - unfold sub, k, j. intros H. apply (f_equal (@length string)) in H.
      rewrite length_firstn, length_skipn in H. simpl in H. lia.
    - apply Forall_forall. intros x Hx. rewrite Forall_forall in Hf. apply Hf.
      apply (in_skipn_any j). apply (in_firstn_any k). exact Hx. }
  unfold applyMdPatches. fold L. cbn [JsArray.sortBy fold_left JsArray.insertBy].
  unfold patchStep. cbn [range text startLine endLine].
  unfold splitLines. rewrite (proj2 (String.eqb_neq _ _) Ht). rewrite Hsub.
  unfold JsArray.splice.
  replace (a - 1 + 0 <? 0) with false by (symmetry; apply Z.ltb_ge; lia).
  replace (Z.min (a - 1 + 0) (Z.of_nat (length L))) with (a - 1) by lia.
  replace (Z.min (Z.max (b - 1 + 0 - (a - 1 + 0) + 1) 0) (Z.of_nat (length L) - (a - 1)))
    with (b - a + 1) by lia.
  replace (Z.to_nat (a - 1 + (b - a + 1))) with (k + j)%nat by (unfold k, j; lia).
  fold j. rewrite <- skipn_skipn. unfold sub. rewrite firstn_skipn, firstn_skipn.
  destruct L as [|x xs] eqn:EL; [congruence|]. rewrite <- EL. unfold L. apply join_split.
Qed.


(** ** [addWwEditRange] *)

Lemma fold_mergeOld_grows (l : list WwBlockRange) : forall a x,
  RangeSpec.within a x -> RangeSpec.within a (fold_left RangeSpec.mergeOld l x).
Proof.
  induction l as [|y l IH]; intros a x H; simpl; [exact H|].
  apply IH. unfold RangeSpec.mergeOld. now apply RangeFacts.within_merge.
Qed.

Lemma fold_mergeNew_grows (l : list WwBlockRange) : forall a x,
  RangeSpec.within a x -> RangeSpec.within a (fold_left RangeSpec.mergeNew l x).
Proof.
  induction l as [|y l IH]; intros a x H; simpl; [exact H|].
  apply IH. unfold RangeSpec.mergeNew. now apply RangeFacts.within_merge.
Qed.

Lemma fold_mergeOld_contains (l : list WwBlockRange) : forall e x,
  In e l -> RangeSpec.within (oldRange e) (fold_left RangeSpec.mergeOld l x).
Proof.
  induction l as [|y l IH]; intros e x H; [inversion H|]. simpl.
  destruct H as [<-|H]; [|now apply IH].
  apply fold_mergeOld_grows. unfold RangeSpec.within, RangeSpec.mergeOld, mergeLineRange.
  simpl. lia.
Qed.

Lemma fold_mergeNew_contains (l : list WwBlockRange) : forall e x,
  In e l -> RangeSpec.within (newRange e) (fold_left RangeSpec.mergeNew l x).
Proof.
  induction l as [|y l IH]; intros e x H; [inversion H|]. simpl.
  destruct H as [<-|H]; [|now apply IH].
  apply fold_mergeNew_grows. unfold RangeSpec.within, RangeSpec.mergeNew, mergeLineRange.
  simpl. lia.
Qed.

(** [addWwEditRange] loses no edited region: every range pending before
    the call, and the (normalised) incoming range, lies inside some range
    of the result, in both its [oldRange] and its [newRange]; the result
    holds at most one range more than before, and when every pending range
    has [startIndex <= endIndex] on both sides, so does every resulting
    range. *)
Theorem addWwEditRange_covers_all (pending : list WwBlockRange) (r : WwBlockRange) :
  let res := addWwEditRange pending r in
  (forall e, In e pending ->
     exists e', In e' res /\ RangeSpec.within (oldRange e) (oldRange e')
                /\ RangeSpec.within (newRange e) (newRange e'))
  /\ (exists e', In e' res /\ RangeSpec.within (normalizeBlockRange (oldRange r)) (oldRange e')
                /\ RangeSpec.within (normalizeBlockRange (newRange r)) (newRange e'))
  /\ (length res <= S (length pending))%nat
  /\ (Forall (fun x => startIndex (oldRange x) <= endIndex (oldRange x)
                       /\ startIndex (newRange x) <= endIndex (newRange x)) pending ->
      Forall (fun x => startIndex (oldRange x) <= endIndex (oldRange x)
                       /\ startIndex (newRange x) <= endIndex (newRange x)) res).
Proof.
  cbv zeta.
  set (n := {| oldRange := normalizeBlockRange (oldRange r);
               newRange := normalizeBlockRange (newRange r) |}).
  destruct (RangeFacts.addStep_fold n pending n [])
    as (kept & absorbed & H1 & H2 & H3 & H4 & H5 & H6 & H7 & H8);
    [unfold RangeSpec.within; lia | unfold RangeSpec.within; lia |].
  unfold addWwEditRange. fold n.
  destruct (fold_left addStep pending (n, [])) as [next merged] eqn:E.
  simpl in H1, H5, H6, H7, H8. subst merged. simpl.
  split; [|split; [|split]].
  - intros e He. apply (Permutation_in e H2), in_app_or in He as [Hk|Ha].
    + exists e. split; [apply in_or_app; now left|].
      unfold RangeSpec.within. lia.
    + exists next. split; [apply in_or_app; right; now left|].
      rewrite H5, H6. split; [apply fold_mergeOld_contains | apply fold_mergeNew_contains];
        exact Ha.
  - exists next. split; [apply in_or_app; right; now left|]. split; [exact H7|exact H8].
  - rewrite length_app. apply Permutation_length in H2. rewrite length_app in H2.
    simpl. lia.
  - intros Hf. rewrite Forall_forall in Hf |- *. intros x Hx.
    apply in_app_or in Hx as [Hx|[<-|[]]].
    + apply Hf. apply (Permutation_in x (Permutation_sym H2)). apply in_or_app. now left.
    + split; eapply RangeFacts.within_ordered; eauto; apply RangeFacts.normalize_ordered.
Qed.

(** ** Witnesses *)

(** Witness: a selection with both ends past the end of the markdown. *)
Lemma snapshot_selection_restores_witness :
  let md := ("ab" ++ Js.NL ++ "c")%string in
  let s := Selection.getSelectionForSnapshot md ((5, 9), (2, 7)) in
  Selection.collapsed s = true /\ Selection.anchor s = Selection.head s
  /\ Selection.restoreSelection s md = (Selection.anchor s, Selection.head s).
Proof.
  cbv zeta.
  pose proof (snapshot_selection_restores ("ab" ++ Js.NL ++ "c")%string ((5, 9), (2, 7))) as H.
  cbv zeta in H. destruct H as [H1 H2].
  assert (Hc : Selection.collapsed
                 (Selection.getSelectionForSnapshot ("ab" ++ Js.NL ++ "c")%string ((5, 9), (2, 7)))
               = true) by (vm_compute; reflexivity).
  split; [exact Hc|]. split; [apply H2; exact Hc|exact H1].
Defined.

(** Witness: the last three and the last zero characters of ["abcdef"]. *)
Lemma tailText_suffix_witness :
  0 <= 3 /\ -1 < 0
  /\ Js.strlen (DebugHelpers.tailText "abcdef" 3) = 3
  /\ DebugHelpers.tailText "abcdef" (-1) = EmptyString.
Proof.
  split; [lia|]. split; [lia|].
  destruct (tailText_suffix "abcdef" 3) as [H1 _].
  destruct (tailText_suffix "abcdef" (-1)) as [_ H2].
  split.
  - destruct (H1 ltac:(lia)) as (pre & _ & ->). reflexivity.
  - apply H2. lia.
Defined.

(** Witness: lines 2..3 of a three-line markdown rewritten with their own text. *)
Lemma applyMdPatches_same_text_patch_witness :
  let md := ("a" ++ Js.NL ++ "b" ++ Js.NL ++ "c")%string in
  1 <= 2 <= 3 /\ 3 <= Z.of_nat (length (Js.split md))
  /\ ("b" ++ Js.NL ++ "c")%string <> EmptyString
  /\ applyMdPatches md [{| range := {| startLine := 2; endLine := 3 |};
                           text := ("b" ++ Js.NL ++ "c")%string |}] = md.
Proof.
  cbv zeta.
  assert (H1 : 1 <= 2 <= 3) by lia.
  assert (H2 : 3 <= Z.of_nat (length (Js.split ("a" ++ Js.NL ++ "b" ++ Js.NL ++ "c")%string)))
    by (apply Z.leb_le; vm_compute; reflexivity).
  assert (H3 : ("b" ++ Js.NL ++ "c")%string <> EmptyString) by (vm_compute; discriminate).
  split; [exact H1|]. split; [exact H2|]. split; [exact H3|].
  exact (applyMdPatches_same_text_patch ("a" ++ Js.NL ++ "b" ++ Js.NL ++ "c")%string 2 3
           H1 H2 H3).
Defined.

(** Witness: a reversed edit between two normalised pending ranges. *)
Lemma addWwEditRange_covers_all_witness :
  let pending := [{| oldRange := {| startIndex := 0; endIndex := 1 |};
                     newRange := {| startIndex := 0; endIndex := 1 |} |};
                  {| oldRange := {| startIndex := 5; endIndex := 6 |};
                     newRange := {| startIndex := 5; endIndex := 7 |} |}] in
  let r := {| oldRange := {| startIndex := 3; endIndex := 2 |};
              newRange := {| startIndex := 3; endIndex := 2 |} |} in
  Forall (fun x => startIndex (oldRange x) <= endIndex (oldRange x)
                   /\ startIndex (newRange x) <= endIndex (newRange x)) pending
  /\ Forall (fun x => startIndex (oldRange x) <= endIndex (oldRange x)
                      /\ startIndex (newRange x) <= endIndex (newRange x))
            (addWwEditRange pending r).
Proof.
  cbv zeta.
  assert (Hp : Forall (fun x => startIndex (oldRange x) <= endIndex (oldRange x)
                                /\ startIndex (newRange x) <= endIndex (newRange x))
     [{| oldRange := {| startIndex := 0; endIndex := 1 |};
         newRange := {| startIndex := 0; endIndex := 1 |} |};
      {| oldRange := {| startIndex := 5; endIndex := 6 |};
         newRange := {| startIndex := 5; endIndex := 7 |} |}])
    by (repeat constructor; simpl; lia).
  split; [exact Hp|].
  pose proof (addWwEditRange_covers_all
     [{| oldRange := {| startIndex := 0; endIndex := 1 |};
         newRange := {| startIndex := 0; endIndex := 1 |} |};
      {| oldRange := {| startIndex := 5; endIndex := 6 |};
         newRange := {| startIndex := 5; endIndex := 7 |} |}]
     {| oldRange := {| startIndex := 3; endIndex := 2 |};
        newRange := {| startIndex := 3; endIndex := 2 |} |}) as H.
  cbv zeta in H. destruct H as (_ & _ & _ & H). exact (H Hp).
Defined.

End HelperFacts.

Module CoordinatorFlowFacts.
Import EditorCore Coordinator.

Section Flow.
Variable Node : Type.
Variable docEq : list Node -> list Node -> bool.
Variable toMarkdownText : list Node -> string.
Variable toWysiwygModel : string -> list Node.
Variable mdBlockLines : string -> list LineRange.
Variable diffInfo : list Node -> list Node -> list Z * BlockRange * bool.
Variable Snapshot : Type.
Variable snapMd : Snapshot -> string.
Variable createSnapshot : Core Node Snapshot -> string -> Snapshot.

Local Abbreviation Core := (Core Node Snapshot).
Local Abbreviation serializeWwBlockRange' := (serializeWwBlockRange Node toMarkdownText).

Lemma skipn_nth_cons (l : list Node) : forall j x,
  nth_error l j = Some x -> skipn j l = x :: skipn (S j) l.
Proof.
  induction l as [|y l IH]; intros [|j] x H; simpl in *; try discriminate.
  - injection H as ->. reflexivity.
  - apply IH. exact H.
Qed.

Lemma children_slice (doc : list Node) (n : nat) : forall i,
  0 <= i -> i + Z.of_nat n <= Z.of_nat (length doc) ->
  children Node doc i n = inr (firstn n (skipn (Z.to_nat i) doc)).
Proof.
  induction n as [|n IH]; intros i H0 H1; simpl; [reflexivity|].
  unfold JsArray.at_. replace (i <? 0) with false by (symmetry; apply Z.ltb_ge; lia).
  destruct (nth_error doc (Z.to_nat i)) as [x|] eqn:Ex.
  - rewrite IH by lia. rewrite (skipn_nth_cons doc _ x Ex).
    replace (Z.to_nat (i + 1)) with (S (Z.to_nat i)) by lia. reflexivity.
  - apply nth_error_None in Ex. lia.
Qed.

(** [serializeWwBlockRange] at its bounds: an empty tree gives [''] for
    every range; an ordered in-range [start..end] serializes exactly those
    children; a reversed in-range range ([end < start]) serializes the
    [start] child alone; a start below [0] or an end at or beyond the child
    count gives [null]; and a reversed range whose start lies at or beyond
    the child count (while its end is in range) passes the guard and raises
    the [RangeError] of [doc.child]. *)
Theorem serializeWwBlockRange_bounds (doc : list Node) (r : BlockRange) :
  let s := startIndex r in
  let e := endIndex r in
  let len := Z.of_nat (length doc) in
  (doc = [] -> serializeWwBlockRange' doc r = inr (Some EmptyString))
  /\ (0 <= s <= e -> e < len ->
      serializeWwBlockRange' doc r
      = inr (Some (toMarkdownText (firstn (Z.to_nat (e - s + 1)) (skipn (Z.to_nat s) doc)))))
  /\ (0 <= e < s -> s < len ->
      exists x, nth_error doc (Z.to_nat s) = Some x
                /\ serializeWwBlockRange' doc r = inr (Some (toMarkdownText [x])))
  /\ (doc <> [] -> s < 0 \/ len <= e -> serializeWwBlockRange' doc r = inr None)
  /\ (doc <> [] -> e < len <= s -> serializeWwBlockRange' doc r = inl RangeError).
Proof.
  cbv zeta. unfold serializeWwBlockRange.
  split; [|split; [|split; [|split]]].
  - intros ->. reflexivity.
  - intros Hs He.
    replace (Z.of_nat (length doc) =? 0) with false by (symmetry; apply Z.eqb_neq; lia).
    replace (startIndex r <? 0) with false by (symmetry; apply Z.ltb_ge; lia).
    replace (endIndex r >=? Z.of_nat (length doc)) with false
      by (symmetry; rewrite Z.geb_leb; apply Z.leb_gt; lia).
    simpl. replace (Z.max (endIndex r) (startIndex r)) with (endIndex r) by lia.
    rewrite children_slice by lia.
    destruct (firstn (Z.to_nat (endIndex r - startIndex r + 1)) (skipn (Z.to_nat (startIndex r)) doc))
      eqn:Ef; [|reflexivity].
    apply (f_equal (@length Node)) in Ef. rewrite length_firstn, length_skipn in Ef.
    simpl in Ef. lia.
  - intros He Hs.
    destruct (nth_error doc (Z.to_nat (startIndex r))) as [x|] eqn:Ex;
      [|apply nth_error_None in Ex; lia].
    exists x. split; [reflexivity|].
    replace (Z.of_nat (length doc) =? 0) with false by (symmetry; apply Z.eqb_neq; lia).
    replace (startIndex r <? 0) with false by (symmetry; apply Z.ltb_ge; lia).
    replace (endIndex r >=? Z.of_nat (length doc)) with false
      by (symmetry; rewrite Z.geb_leb; apply Z.leb_gt; lia).
    simpl. replace (Z.max (endIndex r) (startIndex r) - startIndex r + 1) with 1 by lia.
    simpl. unfold JsArray.at_. replace (startIndex r <? 0) with false by (symmetry; apply Z.ltb_ge; lia).
    rewrite Ex. reflexivity.
  - intros Hd Hr.
    replace (Z.of_nat (length doc) =? 0) with false
      by (symmetry; apply Z.eqb_neq; destruct doc; [congruence|simpl; lia]).
    destruct Hr as [Hr|Hr].
    + replace (startIndex r <? 0) with true by (symmetry; apply Z.ltb_lt; lia). reflexivity.
    + replace (endIndex r >=? Z.of_nat (length doc)) with true
        by (symmetry; rewrite Z.geb_leb; apply Z.leb_le; lia).
      now rewrite orb_true_r.
  - intros Hd Hr.
    assert (Hl : 0 < Z.of_nat (length doc)) by (destruct doc; [congruence|simpl; lia]).
    replace (Z.of_nat (length doc) =? 0) with false by (symmetry; apply Z.eqb_neq; lia).
    replace (startIndex r <? 0) with false by (symmetry; apply Z.ltb_ge; lia).
    replace (endIndex r >=? Z.of_nat (length doc)) with false
      by (symmetry; rewrite Z.geb_leb; apply Z.leb_gt; lia).
    simpl. replace (Z.max (endIndex r) (startIndex r) - startIndex r + 1) with 1 by lia.
    simpl. unfold JsArray.at_. replace (startIndex r <? 0) with false by (symmetry; apply Z.ltb_ge; lia).
    replace (nth_error doc (Z.to_nat (startIndex r))) with (@None Node)
      by (symmetry; apply nth_error_None; lia).
    reflexivity.
Qed.

Local Abbreviation flushPatches' := (flushPatches Node toMarkdownText mdBlockLines Snapshot).
Local Abbreviation flushSerialize' :=
  (flushSerialize Node docEq toMarkdownText mdBlockLines Snapshot).
Local Abbreviation flushSerializeAndMaybePush' :=
  (flushSerializeAndMaybePush Node docEq toMarkdownText mdBlockLines Snapshot createSnapshot).
Local Abbreviation flushPendingWwSerialize' :=
  (flushPendingWwSerialize Node docEq toMarkdownText mdBlockLines Snapshot createSnapshot).

Lemma flushPatches_cases (st : Core) :
  (exists x, flushPatches' st = (setPending Node Snapshot [] st, inr x))
  \/ (exists e, flushPatches' st = (st, inl e)).
Proof.
  unfold flushPatches, bind, get, modify, ret, throw. cbv zeta.
  destruct (resolveRanges Node toMarkdownText (mdBlockLines (canonicalMd st)) (wwDoc st)
              (JsArray.sortBy oldStartKey (pendingWwRanges st))) as [e|res].
  - right. eauto.
  - left. destruct (shouldSerializeAll res); eauto.
Qed.

Lemma flushSerialize_cases (st : Core) :
  (pendingWwRanges st = [] /\ flushSerialize' st = (st, inr (canonicalMd st)))
  \/ flushSerialize' st = (setWwDirty Node Snapshot false (setPending Node Snapshot []
                             (setTimer Node Snapshot None st)), inr (canonicalMd st))
  \/ (exists x, flushSerialize' st = (setPending Node Snapshot [] st, inr x))
  \/ (exists e, flushSerialize' st = (st, inl e)).
Proof.
  unfold flushSerialize, bind, get.
  destruct (pendingWwRanges st) eqn:Hp; [left; split; reflexivity|].
  assert (Hfp : (exists x, flushPatches' st = (setPending Node Snapshot [] st, inr x))
                \/ (exists e, flushPatches' st = (st, inl e))) by apply flushPatches_cases.
  destruct (wwBaselineDoc st) as [b|];
    [destruct (docEq (wwDoc st) b);
     [right; left; reflexivity|]|];
    right; right; destruct Hfp as [[x Hx]|[e He]];
    [left; exists x; exact Hx|right; exists e; exact He|left; exists x; exact Hx|
     right; exists e; exact He].
Qed.

(** What a flush ([flushSerializeAndMaybePush]) changes. *)
Lemma flushSerializeAndMaybePush_effect (st : Core) :
  let '(st', r) := flushSerializeAndMaybePush' st in
  mode st' = mode st /\ mdText st' = mdText st /\ wwDoc st' = wwDoc st
  /\ suppressSnapshot st' = suppressSnapshot st /\ clock st' = clock st
  /\ (wwSerializeTimer st = None -> wwSerializeTimer st' = None)
  /\ (forall x, r = inr x ->
        wwDirty st' = false /\ canonicalMd st' = x /\ pendingWwRanges st' = []
        /\ (x = canonicalMd st -> snapshotHistory st' = snapshotHistory st))
  /\ (forall e, r = inl e -> st' = st).
Proof.
  unfold flushSerializeAndMaybePush. unfold bind at 1.
  destruct (flushSerialize_cases st) as [[Hp E]|[E|[[x E]|[e E]]]]; rewrite E;
    unfold pushSnapshot, setWwBaseline, bind, get, modify, ret; simpl;
    try (rewrite String.eqb_refl; simpl);
    try (destruct (String.eqb x (canonicalMd st)) eqn:Ex; simpl);
    try (destruct (mode st) eqn:Hm; simpl);
    repeat split; try discriminate; auto;
    try (injection H as H; subst; auto).
  all: try (symmetry; apply String.eqb_eq; exact Ex).
  all: intros Hx; subst; rewrite String.eqb_refl in Ex; discriminate.
Qed.

Lemma flushPending_effect (st : Core) :
  let '(st', r) := flushPendingWwSerialize' st in
  wwSerializeTimer st' = None
  /\ mode st' = mode st /\ mdText st' = mdText st /\ wwDoc st' = wwDoc st
  /\ suppressSnapshot st' = suppressSnapshot st /\ clock st' = clock st
  /\ (r = inr tt -> wwDirty st' = false)
  /\ (wwDirty st = true -> r = inr tt -> pendingWwRanges st' = [])
  /\ (wwDirty st = false -> st' = setTimer Node Snapshot None st /\ r = inr tt).
Proof.
  unfold flushPendingWwSerialize, bind, get, modify, ret. simpl.
  destruct (wwDirty st) eqn:Hd.
  - pose proof (flushSerializeAndMaybePush_effect (setTimer Node Snapshot None st)) as H.
    destruct (flushSerializeAndMaybePush' (setTimer Node Snapshot None st)) as [s1 [e|x]].
    + destruct H as (H1 & H2 & H3 & H4 & H5 & H6 & H7 & H8).
      specialize (H8 e eq_refl). subst s1. simpl.
      repeat split; try discriminate; auto.
    + destruct H as (H1 & H2 & H3 & H4 & H5 & H6 & H7 & H8).
      destruct (H7 x eq_refl) as (H9 & H10 & H11 & H12).
      repeat split; auto; discriminate.
  - repeat split; auto; discriminate.
Qed.

(** [flushPendingWwSerialize] always leaves no serialization timer pending.
    When it completes, the dirty flag is lowered, and a dirty flush also
    empties the pending ranges. When the dirty flag is already down, it
    only cancels the timer. *)
Theorem flushPendingWwSerialize_settles (st : Core) :
  let '(st', r) := flushPendingWwSerialize' st in
  wwSerializeTimer st' = None
  /\ (r = inr tt -> wwDirty st' = false)
  /\ (wwDirty st = true -> r = inr tt -> pendingWwRanges st' = [])
  /\ (wwDirty st = false -> st' = setTimer Node Snapshot None st /\ r = inr tt).
Proof.
  pose proof (flushPending_effect st) as H.
  destruct (flushPendingWwSerialize' st) as [st' r].
  destruct H as (H1 & _ & _ & _ & _ & _ & H7 & H8 & H9). auto.
Qed.

Local Abbreviation getMarkdown' :=
  (getMarkdown Node docEq toMarkdownText mdBlockLines Snapshot createSnapshot).

Lemma setTimer_same (st : Core) : setTimer Node Snapshot (wwSerializeTimer st) st = st.
Proof. destruct st; reflexivity. Qed.

(** A completed [getMarkdown()] settles the editor: calling it again right
    away returns the same markdown and changes nothing (in WYSIWYG mode the
    first call has flushed the pending edits and cancelled the timer). *)
Theorem getMarkdown_stable (st : Core) :
  let '(st1, r1) := getMarkdown' st in
  forall md, r1 = inr md -> getMarkdown' st1 = (st1, inr md).
Proof.
  unfold getMarkdown at 1. unfold bind at 1, get at 1.
  destruct (mode st) eqn:Hm.
  - unfold ret. intros md H. injection H as <-.
    unfold getMarkdown, bind, get, ret. rewrite Hm. reflexivity.
  - unfold bind at 1.
    pose proof (flushPending_effect st) as H.
    destruct (flushPendingWwSerialize' st) as [s1 [e|[]]]; [intros md Hr; discriminate|].
    destruct H as (H1 & H2 & _ & _ & _ & _ & H7 & _ & _).
    specialize (H7 eq_refl).
    unfold bind, get, ret. intros md Hr. injection Hr as <-.
    unfold getMarkdown, bind, get, ret. rewrite H2, Hm.
    pose proof (flushPending_effect s1) as H.
    destruct (flushPendingWwSerialize' s1) as [s2 r2].
    destruct H as (_ & _ & _ & _ & _ & _ & _ & _ & H9).
    destruct (H9 H7) as [-> ->].
    rewrite <- H1, setTimer_same. reflexivity.
Qed.

Local Abbreviation advanceClock' :=
  (advanceClock Node docEq toMarkdownText mdBlockLines Snapshot createSnapshot).

(** The serialization timer is a debounce: [scheduleWwSerialize] replaces
    any earlier timer by one due [wwSerializeDelay] (300 ms) from now. Before
    that time, the event loop runs no flush and changes nothing but the
    clock: mode, canonical markdown, text-view content, structured tree,
    baseline, dirty flag, pending ranges, suppression flag, history and the
    timer itself are as they were. From that
    time on, the timer fires: it is cleared, and the flush it runs, once
    completed, leaves the dirty flag lowered and no pending range. *)
Theorem scheduleWwSerialize_debounce (st : Core) (t : Z) :
  let s1 := fst (scheduleWwSerialize Node Snapshot st) in
  wwSerializeTimer s1 = Some (clock st + wwSerializeDelay)
  /\ (t < clock st + wwSerializeDelay ->
      let '(s2, r) := advanceClock' t s1 in
      r = inr tt /\ wwSerializeTimer s2 = wwSerializeTimer s1 /\ clock s2 = t
      /\ canonicalMd s2 = canonicalMd st /\ snapshotHistory s2 = snapshotHistory st
      /\ pendingWwRanges s2 = pendingWwRanges st /\ wwDirty s2 = wwDirty st
      /\ mode s2 = mode st /\ mdText s2 = mdText st /\ wwDoc s2 = wwDoc st
      /\ wwBaselineDoc s2 = wwBaselineDoc st /\ suppressSnapshot s2 = suppressSnapshot st)
  /\ (clock st + wwSerializeDelay <= t ->
      let '(s2, r) := advanceClock' t s1 in
      wwSerializeTimer s2 = None /\ clock s2 = t
      /\ (r = inr tt -> wwDirty s2 = false /\ pendingWwRanges s2 = [])).
Proof.
  cbv zeta. unfold scheduleWwSerialize, bind, get, modify. cbn [fst].
  split; [reflexivity|]. split; intros Ht.
  - unfold advanceClock, bind, get, modify, ret. simpl.
    replace (clock st + wwSerializeDelay <=? t) with false by (symmetry; apply Z.leb_gt; lia).
    repeat split.
  - unfold advanceClock at 1. unfold bind at 1 2, get at 1, modify at 1.
    cbn [wwSerializeTimer setTimer].
    replace (clock st + wwSerializeDelay <=? t) with true by (symmetry; apply Z.leb_le; lia).
    unfold bind at 1, modify at 1. unfold bind at 1.
    match goal with |- context [flushSerializeAndMaybePush' ?X] =>
      pose proof (flushSerializeAndMaybePush_effect X) as H;
      destruct (flushSerializeAndMaybePush' X) as [s2 [e|x]] end.
    + destruct H as (_ & _ & _ & _ & H5 & H6 & _ & H8). specialize (H8 e eq_refl). subst s2.
      simpl. repeat split; discriminate.
    + destruct H as (_ & _ & _ & _ & H5 & H6 & H7 & _). destruct (H7 x eq_refl) as (H9 & _ & H11 & _).
      unfold ret. simpl in *. repeat split; auto.
Qed.

(** A text-view [setMarkdown] made inside [runProgrammatic] (as
    [applyProgrammatic], [changeMode] and [reset] make it) runs the
    [change] listener: the new markdown becomes canonical and the dirty flag
    is lowered, but no snapshot is recorded, whatever the suppression flag
    was before, and the flag is down again afterwards. The same call made
    outside [runProgrammatic] (flag down) ends in the very same state
    except for the history, on which it pushes one snapshot of the new
    markdown (emptying the redo stack). *)
Theorem programmatic_setMarkdown_skips_snapshot (st : Core) (s : string) :
  let '(sp, rp) := runProgrammatic Node Snapshot
                     (mdSetMarkdown Node Snapshot createSnapshot s) st in
  rp = inr tt /\ canonicalMd sp = s /\ mdText sp = s /\ wwDirty sp = false
  /\ suppressSnapshot sp = false /\ snapshotHistory sp = snapshotHistory st
  /\ (suppressSnapshot st = false ->
      mdSetMarkdown Node Snapshot createSnapshot s st
      = (setHistory Node Snapshot
           (SnapshotHistory.push
              (createSnapshot (setWwDirty Node Snapshot false
                                 (setCanonicalMd Node Snapshot s (setMdText Node Snapshot s st)))
                 s)
              (snapshotHistory st)) sp, inr tt)).
Proof.
  unfold runProgrammatic, mdSetMarkdown, onMdChange, pushSnapshot, bind, get, modify, ret.
  destruct st as [m c t d dirty tm p b sup h clk]. simpl.
  repeat split. intros Hs. subst sup. reflexivity.
Qed.

Local Abbreviation applyProgrammatic' :=
  (applyProgrammatic Node toWysiwygModel diffInfo Snapshot createSnapshot).

Lemma applyProgrammatic_effect (st : Core) (md : string) :
  let '(st', r) := applyProgrammatic' md st in
  r = inr tt /\ canonicalMd st' = md /\ mdText st' = md
  /\ snapshotHistory st' = snapshotHistory st
  /\ wwDirty st' = false /\ pendingWwRanges st' = [] /\ wwSerializeTimer st' = None
  /\ suppressSnapshot st' = false /\ mode st' = mode st
  /\ (mode st = Wysiwyg ->
      wwDoc st' = toWysiwygModel md /\ wwBaselineDoc st' = Some (toWysiwygModel md))
  /\ (mode st = Markdown -> wwDoc st' = wwDoc st /\ wwBaselineDoc st' = wwBaselineDoc st).
Proof.
  unfold applyProgrammatic, clearPendingWwEdits, runProgrammatic, setMarkdown, mdSetMarkdown,
    onMdChange, pushSnapshot, wwSetModel, setWwBaseline, bind, get, modify, ret.
  simpl. destruct (mode st) eqn:Hm; simpl.
  - rewrite Hm. simpl. repeat split; try discriminate; assumption.
  - destruct (wwDoc st), (toWysiwygModel md); simpl; rewrite ?Hm; simpl;
      repeat split; try discriminate; assumption.
Qed.

(** [applyProgrammatic], which restores a snapshot, records no snapshot of
    its own. It leaves the canonical markdown and the text view at [md],
    nothing dirty, pending or scheduled, and the snapshot suppression lifted.
    In WYSIWYG mode the tree and the baseline are both the conversion of
    [md]; in markdown mode neither is touched. *)
Theorem applyProgrammatic_records_nothing (st : Core) (md : string) :
  let '(st', r) := applyProgrammatic' md st in
  r = inr tt /\ canonicalMd st' = md /\ mdText st' = md
  /\ snapshotHistory st' = snapshotHistory st
  /\ wwDirty st' = false /\ pendingWwRanges st' = [] /\ wwSerializeTimer st' = None
  /\ suppressSnapshot st' = false /\ mode st' = mode st
  /\ (mode st = Wysiwyg ->
      wwDoc st' = toWysiwygModel md /\ wwBaselineDoc st' = Some (toWysiwygModel md))
  /\ (mode st = Markdown -> wwDoc st' = wwDoc st /\ wwBaselineDoc st' = wwBaselineDoc st).
Proof. apply applyProgrammatic_effect. Qed.

Local Abbreviation undoBySnapshot' :=
  (undoBySnapshot Node docEq toMarkdownText toWysiwygModel mdBlockLines diffInfo Snapshot
     snapMd createSnapshot).
Local Abbreviation redoBySnapshot' :=
  (redoBySnapshot Node docEq toMarkdownText toWysiwygModel mdBlockLines diffInfo Snapshot
     snapMd createSnapshot).

Lemma lastOpt_nonempty (u : list Snapshot) : u <> [] -> exists y, Js.lastOpt u = Some y.
Proof.
  intros Hu. unfold Js.lastOpt. destruct (rev u) as [|y ys] eqn:E; [|eauto].
  apply (f_equal (@rev Snapshot)) in E. rewrite rev_involutive in E. simpl in E. congruence.
Qed.

Lemma redo_snoc (u r : list Snapshot) (x : Snapshot) :
  SnapshotHistory.redo (SnapshotHistory.mk u (r ++ [x]))
  = (Some x, SnapshotHistory.mk (u ++ [x]) r).
Proof.
  unfold SnapshotHistory.redo, SnapshotHistory.canRedo. simpl.
  rewrite length_app. simpl.
  replace (Nat.ltb 0 (length r + 1)) with true by (symmetry; apply Nat.ltb_lt; lia).
  simpl. rewrite HistoryFacts.pop_snoc. reflexivity.
Qed.

(** With nothing dirty and a snapshot below the top of the history,
    [undoBySnapshot] restores the snapshot below the top and moves the top
    one to the redo stack; a [redoBySnapshot] right after restores the top
    snapshot's markdown and gives back the history as it was before the
    undo. *)
Theorem undo_then_redo_round_trip (st : Core) (u r : list Snapshot) (x : Snapshot) :
  snapshotHistory st = SnapshotHistory.mk (u ++ [x]) r -> u <> [] -> wwDirty st = false ->
  let '(s1, r1) := undoBySnapshot' st in
  exists y, Js.lastOpt u = Some y /\ r1 = inr tt /\ canonicalMd s1 = snapMd y
  /\ snapshotHistory s1 = SnapshotHistory.mk u (r ++ [x])
  /\ let '(s2, r2) := redoBySnapshot' s1 in
     r2 = inr tt /\ canonicalMd s2 = snapMd x /\ snapshotHistory s2 = snapshotHistory st.
Proof.
  intros Hh Hu Hd.
  destruct (lastOpt_nonempty u Hu) as [y Hy].
  unfold undoBySnapshot at 1. unfold bind at 1.
  pose proof (flushPending_effect st) as Hf.
  destruct (flushPendingWwSerialize' st) as [s0 r0].
  destruct Hf as (_ & _ & _ & _ & _ & _ & _ & _ & Hf). destruct (Hf Hd) as [-> ->].
  unfold bind at 1, get at 1. cbn [snapshotHistory setTimer]. rewrite Hh.
  rewrite (HistoryFacts.undo_snoc Snapshot u x r Hu), Hy.
  unfold bind at 1, modify at 1.
  set (s0 := setHistory Node Snapshot (SnapshotHistory.mk u (r ++ [x]))
               (setTimer Node Snapshot None st)).
  pose proof (applyProgrammatic_effect s0 (snapMd y)) as Ha.
  destruct (applyProgrammatic' (snapMd y) s0) as [s1 r1].
  destruct Ha as (Ha1 & Ha2 & _ & Ha4 & Ha5 & _).
  exists y. split; [reflexivity|]. split; [exact Ha1|]. split; [exact Ha2|].
  split; [exact Ha4|].
  unfold redoBySnapshot at 1. unfold bind at 1.
  pose proof (flushPending_effect s1) as Hf1.
  destruct (flushPendingWwSerialize' s1) as [s1' r1'].
  destruct Hf1 as (_ & _ & _ & _ & _ & _ & _ & _ & Hf1). destruct (Hf1 Ha5) as [-> ->].
  unfold bind at 1, get at 1. cbv beta. cbn [snapshotHistory setTimer]. rewrite Ha4.
  unfold s0. cbn [snapshotHistory setHistory].
  rewrite redo_snoc. unfold bind at 1, modify at 1.
  set (s2 := setHistory Node Snapshot (SnapshotHistory.mk (u ++ [x]) r)
               (setTimer Node Snapshot None s1)).
  pose proof (applyProgrammatic_effect s2 (snapMd x)) as Hb.
  destruct (applyProgrammatic' (snapMd x) s2) as [s3 r3].
  destruct Hb as (Hb1 & Hb2 & _ & Hb4 & _).
  split; [exact Hb1|]. split; [exact Hb2|]. rewrite Hb4. reflexivity.
Qed.

Local Abbreviation changeMode' :=
  (changeMode Node docEq toMarkdownText toWysiwygModel mdBlockLines diffInfo Snapshot
     createSnapshot).

(** Switching from markdown to WYSIWYG records no snapshot and leaves the
    canonical markdown and the text view as they were. The tree becomes
    the conversion of the text view's markdown and is recorded as the
    baseline, with nothing dirty, pending or scheduled. *)
Theorem changeMode_to_wysiwyg_sets_baseline (st : Core) :
  mode st = Markdown ->
  let '(st', r) := changeMode' Wysiwyg st in
  r = inr tt /\ mode st' = Wysiwyg
  /\ canonicalMd st' = canonicalMd st /\ mdText st' = mdText st
  /\ snapshotHistory st' = snapshotHistory st
  /\ wwDoc st' = toWysiwygModel (mdText st)
  /\ wwBaselineDoc st' = Some (toWysiwygModel (mdText st))
  /\ wwDirty st' = false /\ pendingWwRanges st' = [] /\ wwSerializeTimer st' = None.
Proof.
  intros Hm.
  unfold changeMode, clearPendingWwEdits, runProgrammatic, wwSetModel, setWwBaseline,
    bind, get, modify, ret.
  simpl. rewrite Hm. simpl.
  destruct (wwDoc st), (toWysiwygModel (mdText st)); simpl; rewrite ?andb_false_r; simpl;
    repeat split.
Qed.

(** Switching from WYSIWYG to markdown always sets the mode. Once completed,
    the text view shows the canonical markdown and nothing is dirty. Without
    unsaved structured edits the switch records no snapshot and keeps the
    canonical markdown. With them, the pending edits are flushed first, and
    no range or timer is left. *)
Theorem changeMode_to_markdown_shows_canonical (st : Core) :
  mode st = Wysiwyg ->
  let '(st', r) := changeMode' Markdown st in
  mode st' = Markdown
  /\ (r = inr tt -> mdText st' = canonicalMd st' /\ wwDirty st' = false)
  /\ (wwDirty st = false ->
      r = inr tt /\ canonicalMd st' = canonicalMd st /\ snapshotHistory st' = snapshotHistory st)
  /\ (wwDirty st = true -> r = inr tt ->
      pendingWwRanges st' = [] /\ wwSerializeTimer st' = None).
Proof.
  intros Hm.
  unfold changeMode at 1. unfold bind at 1, get at 1. rewrite Hm. cbn [editorType_eqb].
  unfold bind at 1, modify at 1.
  destruct (wwDirty st) eqn:Hd.
  - unfold bind at 1. unfold bind at 1.
    pose proof (flushPending_effect (setMode Node Snapshot Markdown st)) as Hf.
    destruct (flushPendingWwSerialize' (setMode Node Snapshot Markdown st)) as [s1 [e|[]]].
    + destruct Hf as (_ & Hf2 & _). simpl in *.
      repeat split; try discriminate; auto.
    + destruct Hf as (_ & Hf2 & _). simpl in Hf2.
      unfold clearPendingWwEdits, runProgrammatic, mdSetMarkdown, onMdChange, pushSnapshot,
        bind, get, modify, ret. simpl.
      repeat split; auto; discriminate.
  - unfold ret at 1.
    unfold runProgrammatic, mdSetMarkdown, onMdChange, pushSnapshot, bind, get, modify, ret.
    simpl. repeat split; auto; discriminate.
Qed.

End Flow.
(** ** Witnesses, on the paragraph instance of the collaborators. *)

Local Abbreviation PNode := Paragraphs.Node.
Local Abbreviation PSnap := Paragraphs.Snapshot.
Local Abbreviation edited :=
  (Paragraphs.mkCore Wysiwyg "a"%string "a"%string [["b"%string]] true
     [{| oldRange := {| startIndex := 0; endIndex := 0 |};
         newRange := {| startIndex := 0; endIndex := 0 |} |}]
     None SnapshotHistory.empty).
Local Abbreviation flushPendingP :=
  (flushPendingWwSerialize PNode Paragraphs.docEq Paragraphs.toMarkdownText
     Paragraphs.mdBlockLines PSnap Paragraphs.createSnapshot).
Local Abbreviation getMarkdownP :=
  (getMarkdown PNode Paragraphs.docEq Paragraphs.toMarkdownText
     Paragraphs.mdBlockLines PSnap Paragraphs.createSnapshot).
Local Abbreviation advanceClockP :=
  (advanceClock PNode Paragraphs.docEq Paragraphs.toMarkdownText
     Paragraphs.mdBlockLines PSnap Paragraphs.createSnapshot).
Local Abbreviation applyProgrammaticP :=
  (applyProgrammatic PNode Paragraphs.toWysiwygModel Paragraphs.diffInfo PSnap
     Paragraphs.createSnapshot).
Local Abbreviation changeModeP :=
  (changeMode PNode Paragraphs.docEq Paragraphs.toMarkdownText Paragraphs.toWysiwygModel
     Paragraphs.mdBlockLines Paragraphs.diffInfo PSnap Paragraphs.createSnapshot).

(** Witness: a dirty editor with one pending range, whose flush completes. *)
Lemma flushPendingWwSerialize_settles_witness :
  wwDirty edited = true /\ snd (flushPendingP edited) = inr tt
  /\ pendingWwRanges (fst (flushPendingP edited)) = [].
Proof.
  split; [reflexivity|]. split; [vm_compute; reflexivity|].
  pose proof (flushPendingWwSerialize_settles PNode Paragraphs.docEq Paragraphs.toMarkdownText
                Paragraphs.mdBlockLines PSnap Paragraphs.createSnapshot edited) as H.
  destruct (flushPendingP edited) as [st' r] eqn:E.
  destruct H as (_ & _ & H & _). apply H; [reflexivity|].
  vm_compute in E. injection E as _ <-. reflexivity.
Defined.

(** Witness: the first [getMarkdown()] of a dirty editor flushes and
    returns ["b"], the second returns it again. *)
Lemma getMarkdown_stable_witness :
  snd (getMarkdownP edited) = inr "b"%string
  /\ getMarkdownP (fst (getMarkdownP edited)) = (fst (getMarkdownP edited), inr "b"%string).
Proof.
  split; [vm_compute; reflexivity|].
  pose proof (getMarkdown_stable PNode Paragraphs.docEq Paragraphs.toMarkdownText
                Paragraphs.mdBlockLines PSnap Paragraphs.createSnapshot edited) as H.
  destruct (getMarkdownP edited) as [st1 r1] eqn:E.
  apply H. vm_compute in E. injection E as _ <-. reflexivity.
Defined.

(** Witness: 100 ms after scheduling nothing runs, at 300 ms the flush does. *)
Lemma scheduleWwSerialize_debounce_witness :
  100 < clock edited + wwSerializeDelay /\ clock edited + wwSerializeDelay <= 300
  /\ canonicalMd (fst (advanceClockP 100 (fst (scheduleWwSerialize PNode PSnap edited))))
     = "a"%string
  /\ wwDirty (fst (advanceClockP 300 (fst (scheduleWwSerialize PNode PSnap edited)))) = false.
Proof.
  split; [reflexivity|]. split; [discriminate|].
  pose proof (scheduleWwSerialize_debounce PNode Paragraphs.docEq Paragraphs.toMarkdownText
                Paragraphs.mdBlockLines PSnap Paragraphs.createSnapshot edited 100) as H1.
  pose proof (scheduleWwSerialize_debounce PNode Paragraphs.docEq Paragraphs.toMarkdownText
                Paragraphs.mdBlockLines PSnap Paragraphs.createSnapshot edited 300) as H2.
  cbv zeta in H1, H2. destruct H1 as (_ & H1 & _). destruct H2 as (_ & _ & H2).
  specialize (H1 ltac:(reflexivity)). specialize (H2 ltac:(discriminate)).
  split.
  - destruct (advanceClockP 100 (fst (scheduleWwSerialize PNode PSnap edited))) as [s2 r].
    destruct H1 as (_ & _ & _ & H1 & _). exact H1.
  - destruct (advanceClockP 300 (fst (scheduleWwSerialize PNode PSnap edited))) as [s2 r] eqn:E.
    destruct H2 as (_ & _ & H2). apply H2. vm_compute in E. injection E as _ <-. reflexivity.
Defined.

(** Witness: the same markdown set by the user and programmatically. *)
Lemma programmatic_setMarkdown_skips_snapshot_witness :
  let st := Paragraphs.mkCore Markdown "a"%string "a"%string [] false [] None
              (SnapshotHistory.mk ["a"%string] ["c"%string]) in
  suppressSnapshot st = false
  /\ snapshotHistory (fst (mdSetMarkdown PNode PSnap Paragraphs.createSnapshot "ab"%string st))
     = SnapshotHistory.mk ["a"%string; "ab"%string] []
  /\ snapshotHistory (fst (runProgrammatic PNode PSnap
                             (mdSetMarkdown PNode PSnap Paragraphs.createSnapshot "ab"%string) st))
     = SnapshotHistory.mk ["a"%string] ["c"%string].
Proof.
  cbv zeta. split; [reflexivity|].
  set (st0 := Paragraphs.mkCore Markdown "a"%string "a"%string [] false [] None
                (SnapshotHistory.mk ["a"%string] ["c"%string])).
  pose proof (programmatic_setMarkdown_skips_snapshot PNode PSnap Paragraphs.createSnapshot
                st0 "ab"%string) as H.
  destruct (runProgrammatic PNode PSnap
              (mdSetMarkdown PNode PSnap Paragraphs.createSnapshot "ab"%string) st0) as [sp rp].
  destruct H as (_ & _ & _ & _ & _ & Hh & H). rewrite (H eq_refl). cbn [fst].
  split; [reflexivity|exact Hh].
Defined.

(** Witness: a snapshot applied in WYSIWYG mode. *)
Lemma applyProgrammatic_records_nothing_witness :
  mode edited = Wysiwyg
  /\ wwBaselineDoc (fst (applyProgrammaticP "x"%string edited))
     = Some (Paragraphs.toWysiwygModel "x"%string).
Proof.
  split; [reflexivity|].
  pose proof (applyProgrammatic_records_nothing PNode Paragraphs.toWysiwygModel
                Paragraphs.diffInfo PSnap Paragraphs.createSnapshot edited "x"%string) as H.
  destruct (applyProgrammaticP "x"%string edited) as [st' r].
  destruct H as (_ & _ & _ & _ & _ & _ & _ & _ & _ & H & _). apply H. reflexivity.
Defined.

(** Witness: a clean editor with three snapshots. *)
Lemma undo_then_redo_round_trip_witness :
  let st := Paragraphs.mkCore Wysiwyg "c"%string "c"%string [["c"%string]] false [] None
              (SnapshotHistory.mk ["a"%string; "b"%string; "c"%string] []) in
  snapshotHistory st = SnapshotHistory.mk (["a"%string; "b"%string] ++ ["c"%string]) []
  /\ ["a"%string; "b"%string] <> [] /\ wwDirty st = false
  /\ (let '(s1, r1) := undoBySnapshot PNode Paragraphs.docEq Paragraphs.toMarkdownText
                          Paragraphs.toWysiwygModel Paragraphs.mdBlockLines Paragraphs.diffInfo
                          PSnap Paragraphs.snapMd Paragraphs.createSnapshot st in
      exists y, Js.lastOpt ["a"%string; "b"%string] = Some y /\ r1 = inr tt
      /\ canonicalMd s1 = Paragraphs.snapMd y
      /\ snapshotHistory s1 = SnapshotHistory.mk ["a"%string; "b"%string] ([] ++ ["c"%string])
      /\ let '(s2, r2) := redoBySnapshot PNode Paragraphs.docEq Paragraphs.toMarkdownText
                            Paragraphs.toWysiwygModel Paragraphs.mdBlockLines
                            Paragraphs.diffInfo PSnap Paragraphs.snapMd
                            Paragraphs.createSnapshot s1 in
         r2 = inr tt /\ canonicalMd s2 = Paragraphs.snapMd "c"%string
         /\ snapshotHistory s2 = snapshotHistory st).
Proof.
  cbv zeta. split; [reflexivity|]. split; [discriminate|]. split; [reflexivity|].
  apply undo_then_redo_round_trip; [reflexivity|discriminate|reflexivity].
Defined.

(** Witness: a switch to WYSIWYG from a text-mode editor. *)
Lemma changeMode_to_wysiwyg_sets_baseline_witness :
  let st := Paragraphs.mkCore Markdown "a"%string "a"%string [] false [] None
              SnapshotHistory.empty in
  mode st = Markdown
  /\ wwBaselineDoc (fst (changeModeP Wysiwyg st)) = Some [["a"%string]].
Proof.
  cbv zeta. split; [reflexivity|].
  set (st0 := Paragraphs.mkCore Markdown "a"%string "a"%string [] false [] None
                SnapshotHistory.empty).
  pose proof (changeMode_to_wysiwyg_sets_baseline PNode Paragraphs.docEq
    Paragraphs.toMarkdownText Paragraphs.toWysiwygModel Paragraphs.mdBlockLines
    Paragraphs.diffInfo PSnap Paragraphs.createSnapshot st0 eq_refl) as H.
  destruct (changeModeP Wysiwyg st0) as [st' r].
  destruct H as (_ & _ & _ & _ & _ & _ & H & _). exact H.
Defined.

(** Witness: a switch to markdown with an unsaved structured edit. *)
Lemma changeMode_to_markdown_shows_canonical_witness :
  mode edited = Wysiwyg /\ wwDirty edited = true
  /\ snd (changeModeP Markdown edited) = inr tt
  /\ mdText (fst (changeModeP Markdown edited)) = canonicalMd (fst (changeModeP Markdown edited)).
Proof.
  split; [reflexivity|]. split; [reflexivity|]. split; [vm_compute; reflexivity|].
  pose proof (changeMode_to_markdown_shows_canonical PNode Paragraphs.docEq
    Paragraphs.toMarkdownText Paragraphs.toWysiwygModel Paragraphs.mdBlockLines
    Paragraphs.diffInfo PSnap Paragraphs.createSnapshot edited eq_refl) as H.
  destruct (changeModeP Markdown edited) as [st' r] eqn:E.
  destruct H as (_ & H & _). apply H. vm_compute in E. injection E as _ <-. reflexivity.
Defined.

(** Witness: a reversed range starting past the two children of the tree. *)
Lemma serializeWwBlockRange_bounds_witness :
  let doc := [97%nat; 98%nat] in
  let r := {| startIndex := 2; endIndex := 0 |} in
  doc <> [] /\ endIndex r < Z.of_nat (length doc) <= startIndex r
  /\ serializeWwBlockRange nat (fun l => string_of_list_ascii (map ascii_of_nat l)) doc r
     = inl RangeError.
Proof.
  cbv zeta. split; [discriminate|]. split; [simpl; lia|].
  pose proof (serializeWwBlockRange_bounds nat (fun l => string_of_list_ascii (map ascii_of_nat l))
                [97%nat; 98%nat] {| startIndex := 2; endIndex := 0 |}) as H.
  cbv zeta in H. destruct H as (_ & _ & _ & _ & H). apply H; [discriminate|simpl; lia].
Defined.

End CoordinatorFlowFacts.

Module ConvertPosFacts.
Import EditorCore Coordinator ConvertPos.

Section Facts.
Variable getEditorToMdPos : Z -> Z -> MdPos * MdPos.
Variable getMdToEditorPos : MdPos -> MdPos -> Z * Z.

Local Abbreviation convert' :=
  (convertPosToMatchEditorMode getEditorToMdPos getMdToEditorPos).

(** [convertPosToMatchEditorMode] throws exactly when one of [start] and
    [end] is an array and the other a number. Otherwise both returned
    positions are in the form of the target mode: [[line, ch]] arrays for
    markdown, numbers for WYSIWYG. The target is [mode], or the current
    mode when [mode] is omitted. In particular, omitting [end] never
    throws. *)
Theorem convertPos_matches_target_mode (thisMode : EditorType) (start end_ : EditorPos)
  (mode_ : option EditorType) :
  let target := match mode_ with Some m => m | None => thisMode end in
  let isTargetArray := match target with Markdown => true | Wysiwyg => false end in
  (isArray start <> isArray end_ ->
   convert' thisMode start (Some end_) mode_ = inl "Types of arguments must be same"%string)
  /\ (isArray start = isArray end_ ->
      exists f t, convert' thisMode start (Some end_) mode_ = inr (f, t)
                  /\ isArray f = isTargetArray /\ isArray t = isTargetArray)
  /\ (exists f t, convert' thisMode start None mode_ = inr (f, t)
                  /\ isArray f = isTargetArray /\ isArray t = isTargetArray).
Proof.
  cbv zeta. unfold convertPosToMatchEditorMode.
  assert (Hsame : forall e, isArray start = isArray e ->
    exists f t, convert' thisMode start (Some e) mode_ = inr (f, t)
      /\ isArray f = match match mode_ with Some m => m | None => thisMode end with
                     | Markdown => true | Wysiwyg => false end
      /\ isArray t = match match mode_ with Some m => m | None => thisMode end with
                     | Markdown => true | Wysiwyg => false end).
  { intros e He. unfold convertPosToMatchEditorMode. rewrite He, eqb_reflx. simpl.
    destruct (match mode_ with Some m => m | None => thisMode end);
      destruct start as [s|s], e as [e'|e']; simpl in He; try discriminate;
      try (destruct (getEditorToMdPos s e')); try (destruct (getMdToEditorPos s e'));
      eexists _, _; split; try reflexivity; split; reflexivity. }
  split; [|split].
  - intros H. destruct (Bool.eqb (isArray start) (isArray end_)) eqn:E; [|reflexivity].
    apply eqb_prop in E. contradiction.
  - apply Hsame.
  - apply (Hsame start). reflexivity.
Qed.

End Facts.
(** ** Witness *)

(** Witness: with a line-based position mapping, a number and an array
    are refused, and two numbers become two arrays for markdown. *)
Lemma convertPos_matches_target_mode_witness :
  let e2m := fun a b : Z => ((a, 1), (b, 1)) in
  let m2e := fun p q : MdPos => (fst p, fst q) in
  isArray (PosNum 3) <> isArray (PosArr (1, 2))
  /\ convertPosToMatchEditorMode e2m m2e Wysiwyg (PosNum 3) (Some (PosArr (1, 2))) None
     = inl "Types of arguments must be same"%string
  /\ isArray (PosNum 3) = isArray (PosNum 4)
  /\ exists f t, convertPosToMatchEditorMode e2m m2e Wysiwyg (PosNum 3) (Some (PosNum 4))
                   (Some Markdown) = inr (f, t) /\ isArray f = true /\ isArray t = true.
Proof.
  cbv zeta.
  assert (Hd : isArray (PosNum 3) <> isArray (PosArr (1, 2))) by discriminate.
  assert (Hs : isArray (PosNum 3) = isArray (PosNum 4)) by reflexivity.
  pose proof (convertPos_matches_target_mode (fun a b : Z => ((a, 1), (b, 1)))
                (fun p q : MdPos => (fst p, fst q)) Wysiwyg (PosNum 3) (PosArr (1, 2)) None)
    as [H1 _].
  pose proof (convertPos_matches_target_mode (fun a b : Z => ((a, 1), (b, 1)))
                (fun p q : MdPos => (fst p, fst q)) Wysiwyg (PosNum 3) (PosNum 4)
                (Some Markdown)) as [_ [H2 _]].
  split; [exact Hd|]. split; [exact (H1 Hd)|]. split; [exact Hs|]. exact (H2 Hs).
Defined.

End ConvertPosFacts.

(** ** The incremental flush against full serialization, for any parser
    and serializer that read a document back block for block around the
    edited run. *)
Module FlushRefinement.
Import EditorCore Coordinator.

Section Refinement.
Variable Node : Type.
Variable docEq : list Node -> list Node -> bool.
Variable toMarkdownText : list Node -> string.
Variable mdBlockLines : string -> list LineRange.
Variable Snapshot : Type.

Local Abbreviation flushSerialize' :=
  (flushSerialize Node docEq toMarkdownText mdBlockLines Snapshot).

(** The new block indices of an edited run serialize exactly its blocks. *)
Lemma serialize_run (pre mid post : list Node) :
  mid <> [] ->
  serializeWwBlockRange Node toMarkdownText (pre ++ mid ++ post)
    {| startIndex := Z.of_nat (length pre); endIndex := Z.of_nat (length pre + length mid) - 1 |}
  = inr (Some (toMarkdownText mid)).
Proof.
  intros Hm. destruct mid as [|b mid']; [congruence|]. set (mid := b :: mid').
  unfold serializeWwBlockRange. cbn [startIndex endIndex].
  rewrite !length_app.
  replace (Z.of_nat (length pre + (length mid + length post)) =? 0) with false
    by (symmetry; apply Z.eqb_neq; unfold mid; simpl; lia).
  replace ((Z.of_nat (length pre) <? 0)
           || (Z.of_nat (length pre + length mid) - 1 >=? Z.of_nat (length pre + (length mid + length post))))
    with false
    by (symmetry; apply orb_false_iff; split;
        [apply Z.ltb_ge | rewrite Z.geb_leb; apply Z.leb_gt]; unfold mid; simpl; lia).
  replace (Z.to_nat (Z.max (Z.of_nat (length pre + length mid) - 1) (Z.of_nat (length pre))
                     - Z.of_nat (length pre) + 1))
    with (length mid) by (unfold mid; simpl; lia).
  rewrite ParagraphFacts.children_prefix by (rewrite length_app; lia).
  rewrite firstn_app, Nat.sub_diag, firstn_O, app_nil_r, firstn_all. reflexivity.
Qed.

(** A single patch over lines [|A|+1 .. |A|+|M|] of a text whose lines
    are [A ++ M ++ B] gives the text whose lines are [A ++ splitLines t ++ B]. *)
Lemma patch_middle (md md' : string) (A M B : list string) (t : string) :
  M <> [] ->
  Js.split md = A ++ M ++ B ->
  Js.split md' = A ++ splitLines t ++ B ->
  applyMdPatches md
    [{| range := {| startLine := Z.of_nat (length A) + 1;
                    endLine := Z.of_nat (length A + length M) |}; text := t |}]
  = md'.
Proof.
  intros HM Hs Hs'. unfold applyMdPatches. rewrite Hs.
  cbn [JsArray.sortBy fold_left JsArray.insertBy].
  set (p := {| range := {| startLine := Z.of_nat (length A) + 1;
                            endLine := Z.of_nat (length A + length M) |}; text := t |}).
  set (L := A ++ M ++ B).
  assert (Hwf : PatchSpec.disjointInRange 1 (1 - 1 + Z.of_nat (length L)) [p] = true).
  { unfold p, L. cbn [PatchSpec.disjointInRange range startLine endLine].
    rewrite !length_app. destruct M; [congruence|]. simpl length.
    rewrite !andb_true_r. repeat rewrite andb_true_iff. rewrite !Z.leb_le. lia. }
  pose proof (PatchFacts.fold_patchStep [p] [] L 1 0 eq_refl Hwf) as Hfold.
  cbn [app fold_left] in Hfold.
  destruct (patchStep (L, 0) p) as [lines off]. cbn [fst] in Hfold. subst lines.
  unfold p, L. cbn [PatchSpec.replaceOriginal range text startLine endLine].
  replace (Z.to_nat (Z.of_nat (length A) + 1 - 1)) with (length A) by lia.
  rewrite ParagraphFacts.firstn_exact.
  replace (Z.to_nat (Z.of_nat (length A + length M) - 1 + 1)) with (length (A ++ M))
    by (rewrite length_app; lia).
  rewrite (app_assoc A M B), ParagraphFacts.skipn_exact, <- Hs'.
  pose proof (ClampFacts.split_not_nil md') as Hne.
  destruct (Js.split md') as [|l ls] eqn:E; [congruence|].
  rewrite <- E. apply HelperFacts.join_split.
Qed.

(** C1 (amended): the incremental flush agrees with full serialization for a
    single contiguous structured edit made from a synchronized state, for
    any parser [mdBlockLines] and serializer [toMarkdownText] that read the
    documents back block for block around the edited run. The canonical
    markdown [C] is the full serialization of the last synchronized tree
    [pre ++ oldMid ++ post] (which is also the stored baseline, if any);
    the current tree is [pre ++ newMid ++ post]; and the pending set holds
    the one range of the edited run. Reading back block for block means
    here: the lines of both serializations are [A], then the lines of the
    run's own serialization, then [B] (the blocks outside the run and their
    separators are written the same in both); and the parser of [C] starts
    the first block of the old run on line [|A|+1] and ends its last block
    on the last line of the run's serialization. Structurally equal trees
    ([eq]) serialize alike. Then [flushSerialize] returns the full
    serialization of the current tree. *)
Theorem flush_run_edit_matches_full_serialization (st : Core Node Snapshot)
  (pre oldMid newMid post : list Node) (A B : list string) :
  (forall a b, docEq a b = true -> toMarkdownText a = toMarkdownText b) ->
  oldMid <> [] -> newMid <> [] ->
  splitLines (toMarkdownText oldMid) <> [] ->
  Js.split (toMarkdownText (pre ++ oldMid ++ post))
    = A ++ splitLines (toMarkdownText oldMid) ++ B ->
  Js.split (toMarkdownText (pre ++ newMid ++ post))
    = A ++ splitLines (toMarkdownText newMid) ++ B ->
  (exists e, getMdBlockByIndex (mdBlockLines (toMarkdownText (pre ++ oldMid ++ post)))
               (Z.of_nat (length pre))
             = Some {| startLine := Z.of_nat (length A) + 1; endLine := e |}) ->
  (exists s, getMdBlockByIndex (mdBlockLines (toMarkdownText (pre ++ oldMid ++ post)))
               (Z.of_nat (length pre + length oldMid) - 1)
             = Some {| startLine := s;
                       endLine := Z.of_nat (length A + length (splitLines (toMarkdownText oldMid))) |}) ->
  canonicalMd st = toMarkdownText (pre ++ oldMid ++ post) ->
  wwDoc st = pre ++ newMid ++ post ->
  wwBaselineDoc st = None \/ wwBaselineDoc st = Some (pre ++ oldMid ++ post) ->
  pendingWwRanges st =
    [{| oldRange := {| startIndex := Z.of_nat (length pre);
                       endIndex := Z.of_nat (length pre + length oldMid) - 1 |};
        newRange := {| startIndex := Z.of_nat (length pre);
                       endIndex := Z.of_nat (length pre + length newMid) - 1 |} |}] ->
  snd (flushSerialize' st) = inr (toMarkdownText (wwDoc st)).
Proof.
  intros Heq Ho Hn Hol Hso Hsn [e He] [s Hs] Hc Hd Hb Hp.
  set (oldLines := splitLines (toMarkdownText oldMid)) in *.
  assert (Hrange : getBlockLineRangeForIndexRange
            {| startIndex := Z.of_nat (length pre);
               endIndex := Z.of_nat (length pre + length oldMid) - 1 |}
            (mdBlockLines (toMarkdownText (pre ++ oldMid ++ post)))
          = Some {| startLine := Z.of_nat (length A) + 1;
                    endLine := Z.of_nat (length A + length oldLines) |}).
  { unfold getBlockLineRangeForIndexRange. cbn [startIndex endIndex].
    rewrite He, Hs. cbn [startLine endLine]. do 2 f_equal.
    destruct oldLines; [congruence|]. simpl length. lia. }
  assert (Hfp : snd (flushPatches Node toMarkdownText mdBlockLines Snapshot st)
                = inr (toMarkdownText (wwDoc st))).
  { unfold flushPatches, bind, get, modify, ret. rewrite Hp.
    cbn [JsArray.sortBy fold_left JsArray.insertBy].
    rewrite Hc, Hd. cbn [resolveRanges oldRange newRange].
    rewrite Hrange, serialize_run by exact Hn.
    cbn [shouldSerializeAll existsb isNone fst snd orb patchesOf flat_map app].
    f_equal. apply (patch_middle _ _ A oldLines B); assumption. }
  unfold flushSerialize, bind, get. cbv beta iota.
  rewrite Hp.
  destruct Hb as [Hb|Hb]; rewrite Hb; [exact Hfp|].
  destruct (docEq (wwDoc st) (pre ++ oldMid ++ post)) eqn:E; [|exact Hfp].
  apply Heq in E. rewrite E, <- Hc. reflexivity.
Qed.

End Refinement.

(** Witness for C1, on the paragraph instance: one paragraph before, one
    replaced by two, one after, the baseline being the synchronized tree. *)
Lemma flush_run_edit_matches_full_serialization_witness :
  let pre := [["a"%string]] in
  let oldMid := [["b"%string]] in
  let newMid := [["c"%string; "c2"%string]; ["d"%string]] in
  let post := [["e"%string]] in
  let A := ["a"%string; EmptyString] in
  let B := [EmptyString; "e"%string] in
  let C := Paragraphs.toMarkdownText (pre ++ oldMid ++ post) in
  let st := Paragraphs.mkCore Wysiwyg C C (pre ++ newMid ++ post) true
              [{| oldRange := {| startIndex := 1; endIndex := 1 |};
                  newRange := {| startIndex := 1; endIndex := 2 |} |}]
              (Some (pre ++ oldMid ++ post)) SnapshotHistory.empty in
  Js.split C = A ++ splitLines (Paragraphs.toMarkdownText oldMid) ++ B
  /\ Js.split (Paragraphs.toMarkdownText (pre ++ newMid ++ post))
     = A ++ splitLines (Paragraphs.toMarkdownText newMid) ++ B
  /\ Paragraphs.mdBlockLines C
     = [{| startLine := 1; endLine := 1 |}; {| startLine := 3; endLine := 3 |};
        {| startLine := 5; endLine := 5 |}]
  /\ snd (Paragraphs.flushSerialize st) = inr (Paragraphs.toMarkdownText (wwDoc st)).
Proof.
  cbv zeta.
  split; [vm_compute; reflexivity|]. split; [vm_compute; reflexivity|].
  split; [vm_compute; reflexivity|].
  apply (flush_run_edit_matches_full_serialization Paragraphs.Node Paragraphs.docEq
           Paragraphs.toMarkdownText Paragraphs.mdBlockLines Paragraphs.Snapshot _
           [["a"%string]] [["b"%string]] [["c"%string; "c2"%string]; ["d"%string]]
           [["e"%string]] ["a"%string; EmptyString] [EmptyString; "e"%string]).
  - intros a b H. apply ParagraphFacts.docEq_sound in H. subst. reflexivity.
  - discriminate.
  - discriminate.
  - vm_compute. discriminate.
  - vm_compute. reflexivity.
  - vm_compute. reflexivity.
  - eexists. vm_compute. reflexivity.
  - eexists. vm_compute. reflexivity.
  - reflexivity.
  - reflexivity.
  - right. reflexivity.
  - reflexivity.
Defined.

End FlushRefinement.
